(** * diffpy.srfit: restraints, constraints, parameters and visitors

    A shallow embedding of the Python sources

    - [diffpy/srfit/fit/restrain.py]            (module [Restrain])
    - [diffpy/srfit/fitbase/constraint.py]      (module [ConstraintPy])
    - [diffpy/srfit/fitbase/parameter.py]       (modules [ParameterPy], [Wrapper])
    - [diffpy/srfit/equation/literals/Generator.py] (module [GeneratorPy])
    - [diffpy/srfit/util/visitors.py]           (module [Visitors])

    Python objects live in an explicit store keyed by their identity, a
    raised exception is the [Raise] branch of [result] (the state reached
    when an exception is raised is not kept), and numbers are exact
    rationals.  The sources come from more than one revision of the package:
    constraint.py keeps a [constrained] flag on the parameter, parameter.py
    an optional [constraint] equation, visitors.py reads [_constraint]; each
    module below follows its own file. *)

From Stdlib Require Import QArith Qminmax Qabs ZArith Lia Lqa Ascii String.
From stdpp Require Import gmap strings list pretty.

Set Default Proof Using "Type".
Set Warnings "-register-all".

(** ** Exceptions and results *)

Inductive exception : Type :=
| ValueError (msg : string)
| EvaluationError (msg : string)
| IndexError
| TypeError
| AttributeError
| ReferenceError
| RecursionError.

Inductive result (A : Type) : Type :=
| Ok (a : A)
| Raise (e : exception).
Arguments Ok {A} a.
Arguments Raise {A} e.

(** Sequencing: the first raised exception aborts what follows. *)
#[global] Instance result_ret : MRet result := fun A a => Ok a.
#[global] Instance result_bind : MBind result := fun A B k r =>
  match r with
  | Ok a => k a
  | Raise e => Raise e
  end.

Definition is_Ok {A} (r : result A) : Prop := exists a, r = Ok a.
Definition raises_ValueError {A} (r : result A) : Prop :=
  exists msg, r = Raise (ValueError msg).

(** Identity of a Python object (what [is] compares and [set] hashes). *)
Definition ident := nat.

(** ** Equation nodes

    The node classes themselves ([adapters.nodes], [literals.operators]) are
    not among the sources; the sources only build nodes through overloaded
    arithmetic and [maximum_], and evaluate them by calling them. *)

Inductive ufunc : Type :=
| add | subtract | multiply | divide | negative | maximum.

Inductive node : Type :=
| Number (q : Q)                       (* a plain float or int operand *)
| Leaf (p : ident)                     (* an Argument / Parameter object *)
| Operator (name : string) (f : ufunc) (args : list node).

Definition set_name (n : node) (s : string) : node :=
  match n with
  | Operator _ f args => Operator s f args
  | _ => n
  end.

Definition node_name (n : node) : option string :=
  match n with
  | Operator s _ _ => Some s
  | _ => None
  end.

Definition ufunc_name (f : ufunc) : string :=
  match f with
  | add => "add" | subtract => "subtract" | multiply => "multiply"
  | divide => "divide" | negative => "negative" | maximum => "maximum"
  end.

(** [a - b], [a / b], [a * b], [maximum_(a, b)] on nodes build an Operator
    named after its function. *)
Definition mk (f : ufunc) (args : list node) : node :=
  Operator (ufunc_name f) f args.

(** Modelled from the spec: the evaluation function of an Operator (section
    4.2: apply the associated function to the children's values, positional
    children in order; an arity mismatch or a malformed numeric operation is
    an EvaluationError).  Operator.__call__ is not among the sources. *)
Definition apply_ufunc (f : ufunc) (vs : list Q) : result Q :=
  match f, vs with
  | add, [a; b] => Ok (a + b)%Q
  | subtract, [a; b] => Ok (a - b)%Q
  | multiply, [a; b] => Ok (a * b)%Q
  | divide, [a; b] =>
      if Qeq_bool b 0 then Raise (EvaluationError "division by zero")
      else Ok (a / b)%Q
  | negative, [a] => Ok (- a)%Q
  | maximum, [a; b] => Ok (Qmax a b)
  | _, _ => Raise (EvaluationError "arity")
  end.

Section Evaluate.
(** The state read (and possibly written) when a leaf is asked its value. *)
Context {St : Type}.
Variable leaf_value : ident -> St -> result (Q * St).

Fixpoint evaluate (n : node) (s : St) : result (Q * St) :=
  match n with
  | Number q => Ok (q, s)
  | Leaf p => leaf_value p s
  | Operator _ f args =>
      let fix evaluate_args (l : list node) (s : St) : result (list Q * St) :=
        match l with
        | [] => Ok ([], s)
        | a :: l' =>
            '(v, s1) ← evaluate a s;
            '(vs, s2) ← evaluate_args l' s1;
            Ok (v :: vs, s2)
        end in
      '(vs, s') ← evaluate_args args s;
      v ← apply_ufunc f vs;
      Ok (v, s')
  end.

(** The children loop of [evaluate], as a function of its own. *)
Fixpoint evaluate_args (l : list node) (s : St) : result (list Q * St) :=
  match l with
  | [] => Ok ([], s)
  | a :: l' =>
      '(v, s1) ← evaluate a s;
      '(vs, s2) ← evaluate_args l' s1;
      Ok (v :: vs, s2)
  end.

End Evaluate.

(** Evaluation against a fixed assignment of leaf values. *)
Definition env := ident -> option Q.

Definition env_leaf (p : ident) (e : env) : result (Q * env) :=
  match e p with
  | Some v => Ok (v, e)
  | None => Raise (EvaluationError "leaf without a value")
  end.

Definition eval (e : env) (n : node) : result Q :=
  '(v, _) ← evaluate env_leaf n e; Ok v.

Fixpoint eval_args (e : env) (l : list node) : result (list Q) :=
  match l with
  | [] => Ok []
  | a :: l' => v ← eval e a; vs ← eval_args e l'; Ok (v :: vs)
  end.

(** ** restrain.py *)

Module Restrain.

(** [restrain(eq, lb, ub = None, sig = 1)] *)
Definition restrain (eq lb : node) (ub : option node) (sig : option node)
  : result node :=
  let sig := match sig with Some s => s | None => Number 1 end in
  let ub := match ub with Some u => u | None => lb end in
  let resv :=
    mk divide [mk maximum [mk subtract [lb; eq];
                           mk maximum [Number 0; mk subtract [eq; ub]]];
               sig] in
  let resv := set_name resv "restraint" in
  Ok resv.

End Restrain.

(** The node [restrain] returns, written out. *)
Definition restraint_node (eq lb ub sig : node) : node :=
  Operator "restraint" divide
    [Operator "maximum" maximum
       [Operator "subtract" subtract [lb; eq];
        Operator "maximum" maximum
          [Number 0; Operator "subtract" subtract [eq; ub]]];
     sig].

(** ** Parameters and the object store *)

(** An equation object: its identity and the node it evaluates. *)
Record Equation : Type := mkEquation { eq_id : ident; root : node }.

Inductive bound : Type := NegInf | Finite (q : Q) | PosInf.

(** The attributes of a Parameter object ([Parameter] is a reserved word
    here, hence [Param]).  [constrained] is the flag kept by
    constraint.py; [constraint] is the equation kept by parameter.py. *)
Record Param : Type := mkParam {
  name : string;
  _value : option Q;
  const : bool;
  constrained : bool;
  constraint : option Equation;
  bounds : bound * bound }.

(** The heap: Parameter objects by identity, the observer registrations
    (subject, observer) and the sequence of [notify] calls made so far. *)
Record store : Type := mkStore {
  pars : gmap ident Param;
  observers : gset (ident * ident);
  notified : list ident }.

Definition with_value (v : option Q) (P : Param) : Param :=
  mkParam (name P) v (const P) (constrained P) (constraint P) (bounds P).

Definition with_constrained (b : bool) (P : Param) : Param :=
  mkParam (name P) (_value P) (const P) b (constraint P) (bounds P).

Definition with_constraint (c : option Equation) (P : Param) : Param :=
  mkParam (name P) (_value P) (const P) (constrained P) c (bounds P).

Definition with_const (b : bool) (P : Param) : Param :=
  mkParam (name P) (_value P) b (constrained P) (constraint P) (bounds P).

(** Reading an object through a reference; a reference to no object does not
    arise in Python and is reported as an error of its own. *)
Definition get (p : ident) (s : store) : result Param :=
  match pars s !! p with
  | Some P => Ok P
  | None => Raise ReferenceError
  end.

(** Attribute assignment on the object [p]. *)
Definition update_par (p : ident) (f : Param -> Param) (s : store)
  : result store :=
  P ← get p s;
  Ok (mkStore (<[p := f P]> (pars s)) (observers s) (notified s)).

(** Modelled from the spec: Observable.notify, addObserver and removeObserver
    are not among the sources (section 4.1: a change is signalled to whoever
    registered a dependency; section 4.5: constrain registers the dependency,
    unconstrain detaches it).  The model records the call and keeps the
    registrations as a set; what an observer does on being told, dropping a
    cached result, has no counterpart here since nodes carry no cache. *)
Definition notify (p : ident) (s : store) : store :=
  mkStore (pars s) (observers s) (notified s ++ [p]).

Definition addObserver (subject observer : ident) (s : store) : store :=
  mkStore (pars s) (observers s ∪ {[ (subject, observer) ]}) (notified s).

Definition removeObserver (subject observer : ident) (s : store) : store :=
  mkStore (pars s) (observers s ∖ {[ (subject, observer) ]}) (notified s).

(** Python's [val != stored] on a number and a possibly absent number. *)
Definition differs (val : Q) (stored : option Q) : bool :=
  match stored with
  | Some w => negb (Qeq_bool val w)
  | None => true
  end.

(** Modelled from the spec: Argument.getValue and Argument.setValue are not
    among the sources (section 3: a leaf holds a value, mutating it signals
    the change).  getValue returns the stored value.  setValue stores and
    signals only when the value differs from the stored one, as the comment
    in Constraint.update says.  The const flag is not consulted: setConst in
    parameter.py sets the flag and then calls setValue to give the parameter
    a new value, constant or otherwise, and the override
    ParameterWrapper.setValue does not consult it either. *)
Definition Argument_getValue (p : ident) (s : store) : result (option Q * store) :=
  P ← get p s; Ok (_value P, s).

Definition Argument_setValue (p : ident) (val : Q) (s : store) : result store :=
  P ← get p s;
  if differs val (_value P) then
    s' ← update_par p (with_value (Some val)) s;
    Ok (notify p s')
  else Ok s.

(** Modelled from the spec: how an equation reads a leaf is part of the node
    classes, which are not among the sources (section 4.2: evaluating a Leaf
    returns its stored value or, for a constrained Parameter, delegates to
    its constraint's evaluation, that is, goes through getValue).  A leaf
    used as an operand must hold a number. *)
Definition as_number (gv : ident -> store -> result (option Q * store))
    (p : ident) (s : store) : result (Q * store) :=
  '(ov, s') ← gv p s;
  match ov with
  | Some v => Ok (v, s')
  | None => Raise (EvaluationError "operand is None")
  end.

(** ** parameter.py: class Parameter *)

Module ParameterPy.

(** [Parameter.getValue].  Calling the constraint evaluates its leaves through
    their own getValue, so the recursion runs through the store; [fuel] is
    the depth of Python's call stack still available. *)
Fixpoint getValue (fuel : nat) (p : ident) (s : store)
  : result (option Q * store) :=
  match fuel with
  | O => Raise RecursionError
  | S k =>
      P ← get p s;
      match constraint P with
      | Some eq =>
          '(v, s1) ← evaluate (as_number (getValue k)) (root eq) s;
          s2 ← update_par p (with_value (Some v)) s1;
          Argument_getValue p s2
      | None => Argument_getValue p s
      end
  end.

(** Calling an equation: [eq()]. *)
Definition call (fuel : nat) (eq : Equation) (s : store) : result (Q * store) :=
  evaluate (as_number (getValue fuel)) (root eq) s.

(** Modelled from the spec: Parameter._flush is inherited and not among the
    sources.  Section 4.5 says that constrain immediately forces one
    evaluation so that the value is consistent; the override
    ParameterWrapper._flush, which is among the sources, has this shape with
    the setter as storage: evaluate the constraint if there is one, store,
    notify. *)
Definition _flush (fuel : nat) (p : ident) (s : store) : result store :=
  P ← get p s;
  match constraint P with
  | Some eq =>
      '(v, s1) ← call fuel eq s;
      s2 ← update_par p (with_value (Some v)) s1;
      Ok (notify p s2)
  | None => Ok (notify p s)
  end.

(** [Parameter.constrain(self, eq)] *)
Definition constrain (fuel : nat) (p : ident) (eq : Equation) (s : store)
  : result store :=
  s1 ← update_par p (with_constraint (Some eq)) s;
  let s2 := addObserver (eq_id eq) p s1 in
  _flush fuel p s2.

(** [Parameter.unconstrain(self)] *)
Definition unconstrain (fuel : nat) (p : ident) (s : store) : result store :=
  P ← get p s;
  s' ← match constraint P with
       | Some eq =>
           '(v, s1) ← call fuel eq s;
           s2 ← update_par p (with_value (Some v)) s1;
           P2 ← get p s2;
           match constraint P2 with
           | Some eq2 =>
               let s3 := removeObserver (eq_id eq2) p s2 in
               update_par p (with_constraint None) s3
           | None => Raise AttributeError
           end
       | None => Ok s
       end;
  Ok (notify p s').

(** [Parameter.setValue] is inherited from Argument. *)
Definition setValue := Argument_setValue.

(** [Parameter.setConst(self, const = True, value = None)] *)
Definition setConst (p : ident) (c : bool) (value : option Q) (s : store)
  : result store :=
  s1 ← update_par p (with_const c) s;
  match value with
  | Some v => setValue p v s1
  | None => Ok s1
  end.

End ParameterPy.

(** ** constraint.py: class Constraint *)

Module ConstraintPy.

Record Constraint : Type := mkConstraint {
  par : option ident;
  eq : option Equation }.

(** [Constraint.__init__] *)
Definition init : Constraint := mkConstraint None None.

(** [Constraint.update] *)
Definition update (fuel : nat) (self : Constraint) (s : store) : result store :=
  match eq self with
  | Some e =>
      '(val, s1) ← ParameterPy.call fuel e s;
      match par self with
      | Some p => Argument_setValue p val s1
      | None => Raise AttributeError
      end
  | None => Raise TypeError
  end.

(** [Constraint.constrain(self, par, eq)]; the message shows the parameter by
    its name. *)
Definition constrain (fuel : nat) (self : Constraint) (p : ident) (e : Equation)
    (s : store) : result (Constraint * store) :=
  P ← get p s;
  if const P then
    Raise (ValueError ("The parameter '" +:+ name P +:+ "' is constant"))
  else if constrained P then
    Raise (ValueError ("The parameter '" +:+ name P +:+ "' is already constrained"))
  else
    s1 ← update_par p (with_constrained true) s;
    let self := mkConstraint (Some p) (Some e) in
    s2 ← update fuel self s1;
    Ok (self, s2).

(** [Constraint.unconstrain(self)] *)
Definition unconstrain (self : Constraint) (s : store)
  : result (Constraint * store) :=
  match par self with
  | Some p =>
      s1 ← update_par p (with_constrained false) s;
      Ok (mkConstraint None None, s1)
  | None => Raise AttributeError
  end.

End ConstraintPy.

(** ** parameter.py: construction of a Parameter *)

Definition is_letter_or_underscore (c : ascii) : bool :=
  let n := nat_of_ascii c in
  ((65 <=? n) && (n <=? 90) || (97 <=? n) && (n <=? 122) || (n =? 95))%nat.

Definition is_word_char (c : ascii) : bool :=
  let n := nat_of_ascii c in
  (is_letter_or_underscore c || (48 <=? n) && (n <=? 57))%nat.

Fixpoint all_chars (f : ascii -> bool) (s : string) : bool :=
  match s with
  | EmptyString => true
  | String c r => f c && all_chars f r
  end.

Definition isIdentifier (s : string) : bool :=
  match s with
  | EmptyString => false
  | String c r => is_letter_or_underscore c && all_chars is_word_char r
  end.

(** Modelled from the spec: validateName (util.nameutils) is not among the
    sources and the spec does not describe it; the docstring of
    Parameter.__init__ does: it raises ValueError if the name is not a valid
    attribute identifier. *)
Definition validateName (nm : string) : result unit :=
  if isIdentifier nm then Ok tt
  else Raise (ValueError ("Name '" +:+ nm +:+ "' is not a valid identifier")).

(** [Parameter.__init__(self, name, value = None, const = False)].
    Modelled from the spec: Argument.__init__, which it ends with, is not
    among the sources; it keeps the name, the value and the const flag
    (section 3). *)
Definition Parameter_init (nm : string) (value : option Q) (c : bool)
  : result Param :=
  _ ← validateName nm;
  Ok (mkParam nm value c false None (NegInf, PosInf)).

(** ** parameter.py: class ParameterWrapper *)

Module Wrapper.
Section Wrapped.

(** The state of the wrapped, externally owned object, and Python's getattr
    and setattr on it. *)
Context {Obj : Type}.
Variable getattr : Obj -> string -> result Q.
Variable setattr : Obj -> string -> Q -> result Obj.

(** A getter is called as [getter(obj)] or [getter(obj, attr)], a setter as
    [setter(obj, value)] or [setter(obj, attr, value)]. *)
Definition Getter : Type := Obj -> option string -> result Q.
Definition Setter : Type := Obj -> option string -> Q -> result Obj.

Record ParameterWrapper : Type := mkWrapper {
  self : ident;
  par : Param;
  getter : option (Obj -> result Q);
  setter : option (Obj -> Q -> result Obj);
  attr : option string }.

Definition is_None {A} (o : option A) : bool :=
  match o with None => true | Some _ => false end.

(** [[getter, setter].count(None)] *)
Definition count_None (g : option Getter) (st : option Setter) : nat :=
  (if is_None g then 1 else 0) + (if is_None st then 1 else 0).

(** [self.getter] and [self.setter] as __init__ leaves them. *)
Definition effective_getter (g : option Getter) (a : option string)
  : option (Obj -> result Q) :=
  match a with
  | Some a =>
      match g with
      | None => Some (fun o => getattr o a)
      | Some g => Some (fun o => g o (Some a))
      end
  | None => (fun g o => g o None) <$> g
  end.

Definition effective_setter (st : option Setter) (a : option string)
  : option (Obj -> Q -> result Obj) :=
  match a with
  | Some a =>
      match st with
      | None => Some (fun o val => setattr o a val)
      | Some st => Some (fun o val => st o (Some a) val)
      end
  | None => (fun st o val => st o None val) <$> st
  end.

(** [ParameterWrapper.getValue]: [self.getter(self.obj)] *)
Definition getValue (w : ParameterWrapper) (o : Obj) : result Q :=
  match getter w with
  | Some g => g o
  | None => Raise TypeError
  end.

(** [ParameterWrapper.__init__(self, name, obj, getter, setter, attr)];
    [id] is the identity of the object being built. *)
Definition init (id : ident) (nm : string) (o : Obj) (g : option Getter)
    (st : option Setter) (a : option string) : result ParameterWrapper :=
  if is_None g && is_None st && is_None a then
    Raise (ValueError "Specify attribute access")
  else if (count_None g st =? 1)%nat then
    Raise (ValueError "Specify both getter and setter")
  else
    let w := mkWrapper id (mkParam "" None false false None (NegInf, PosInf))
               (effective_getter g a) (effective_setter st a) a in
    value ← getValue w o;
    P ← Parameter_init nm (Some value) false;
    Ok (mkWrapper id P (effective_getter g a) (effective_setter st a) a).

(** [ParameterWrapper.setValue]; the state is the wrapped object and the
    store that records notifications. *)
Definition setValue (w : ParameterWrapper) (value : Q) (os : Obj * store)
  : result (Obj * store) :=
  let '(o, s) := os in
  current ← getValue w o;
  if negb (Qeq_bool value current) then
    match setter w with
    | Some st => o' ← st o value; Ok (o', notify (self w) s)
    | None => Raise TypeError
    end
  else Ok (o, s).

(** [ParameterWrapper._flush] *)
Definition _flush (fuel : nat) (w : ParameterWrapper) (os : Obj * store)
  : result (Obj * store) :=
  let '(o, s) := os in
  match constraint (par w) with
  | Some eq =>
      '(v, s1) ← ParameterPy.call fuel eq s;
      match setter w with
      | Some st => o' ← st o v; Ok (o', notify (self w) s1)
      | None => Raise TypeError
      end
  | None => Ok (o, notify (self w) s)
  end.

(** The accessor arguments __init__ rejects: exactly one of getter and setter
    supplied, or nothing supplied at all. *)
Definition accessor_misuse (g : option Getter) (st : option Setter)
    (a : option string) : Prop :=
  (g = None /\ st <> None) \/ (g <> None /\ st = None)
  \/ (g = None /\ st = None /\ a = None).

End Wrapped.
End Wrapper.

(** ** literals/Generator.py *)

Module GeneratorPy.

(** The attributes of a Generator; [subjects] are the clickers its own
    clicker observes. *)
Record Generator : Type := mkGenerator {
  name : string;
  literal : option node;
  args : list node;
  subjects : list node }.

(** [Generator.__init__(self, name = "")] *)
Definition init (nm : string) : Generator := mkGenerator nm None [] [].

(** [Generator.addLiteral] *)
Definition addLiteral (self : Generator) (l : node) : Generator :=
  mkGenerator (name self) (literal self) (args self ++ [l]) (subjects self ++ [l]).

(** A Generator class: what its [generate(self, clicker)] does to the
    object.  The base class does nothing. *)
Record GeneratorClass : Type := mkClass {
  generate : Generator -> nat -> Generator }.

Definition Generator_base : GeneratorClass := mkClass (fun self _ => self).

(** A visitor with state [V]; its handler receives the generator and may
    replace it (for instance by calling generate itself). *)
Record Visitor (V : Type) : Type := mkVisitor {
  onGenerator : GeneratorClass -> Generator -> V -> result (Generator * V) }.
Arguments onGenerator {V} _ _ _ _.
Arguments mkVisitor {V} _.

(** [Generator.identify(self, visitor)] *)
Definition identify {V} (cls : GeneratorClass) (self : Generator)
    (visitor : Visitor V) (vs : V) : result (Generator * V) :=
  onGenerator visitor cls self vs.

(** What the call would be if identify first ran the update policy with
    some clicker [clk] and then dispatched. *)
Definition identify_after_generate {V} (cls : GeneratorClass) (self : Generator)
    (visitor : Visitor V) (vs : V) (clk : nat) : result (Generator * V) :=
  onGenerator visitor cls (generate cls self clk) vs.

(** A Generator class whose generate refreshes the literal, and a visitor
    that reports whether the generator it is shown holds a literal. *)
Definition Refreshing : GeneratorClass :=
  mkClass (fun self _ => mkGenerator (name self) (Some (Number 1)) (args self) (subjects self)).

Definition literal_seen : Visitor bool :=
  mkVisitor (fun _ g _ => Ok (g, match literal g with Some _ => true | None => false end)).

End GeneratorPy.

(** ** util/visitors.py *)

Module Visitors.

(** The function an Operator applies ([obj._unbound]); the Printer knows
    five of them as infix and one as unary. *)
Inductive unbound : Type :=
| u_add | u_subtract | u_multiply | u_divide | u_power | u_negative
| u_other (f : ident).

(** The nodes the visitors walk, with the attributes they read: identity,
    name, value, [_constraint], [_args], [_kw] (in iteration order) and
    [adapters]. *)
Inductive vnode : Type :=
| Par (id : ident) (name : option string) (value : Z) (_constraint : option vnode)
| Op (id : ident) (name : string) (_unbound : unbound) (_args : list vnode)
     (_kw : list (string * vnode))
| Container (id : ident) (name : option string) (value : Z)
     (adapters : list vnode).

Definition node_id (n : vnode) : ident :=
  match n with
  | Par i _ _ _ | Op i _ _ _ _ | Container i _ _ _ => i
  end.

Definition is_par (n : vnode) : bool :=
  match n with Par _ _ _ _ => true | _ => false end.

(** [if self.filt(obj): self.vals.add(obj)] *)
Definition add_if (filt : vnode -> bool) (obj : vnode) (vals : gset ident)
  : gset ident :=
  if filt obj then vals ∪ {[ node_id obj ]} else vals.

(** Modelled from the spec: [_identify] belongs to the node classes, which
    are not among the sources; it is the double dispatch of section 4.2, a
    parameter calling onParameter, an operator onOperator, a container
    onContainer.  Each visitor below is its handlers joined by that
    dispatch. *)

(** class FilterGetter: [vals] after visiting [n]. *)
Fixpoint FilterGetter (filt : vnode -> bool) (n : vnode) (vals : gset ident)
  : gset ident :=
  match n with
  | Par _ _ _ c =>
      let vals := add_if filt n vals in
      match c with
      | Some e => FilterGetter filt e vals
      | None => vals
      end
  | Op _ _ _ args kw =>
      let vals := add_if filt n vals in
      let vals := fold_left (fun vals arg => FilterGetter filt arg vals) args vals in
      fold_left (fun vals ka => FilterGetter filt (snd ka) vals) kw vals
  | Container _ _ _ ads =>
      let vals := add_if filt n vals in
      fold_left (fun vals arg => FilterGetter filt arg vals) ads vals
  end.

Definition _identity (obj : vnode) : bool := true.

(** class ParameterGetter, after [__init__] has replaced an absent filter by
    [_identity]. *)
Fixpoint ParameterGetter_visit (filt : vnode -> bool) (n : vnode)
    (vals : gset ident) : gset ident :=
  match n with
  | Par _ _ _ c =>
      let vals := add_if filt n vals in
      match c with
      | Some e => ParameterGetter_visit filt e vals
      | None => vals
      end
  | Op _ _ _ args kw =>
      let vals := fold_left (fun vals arg => ParameterGetter_visit filt arg vals) args vals in
      fold_left (fun vals ka => ParameterGetter_visit filt (snd ka) vals) kw vals
  | Container _ _ _ ads =>
      fold_left (fun vals arg => ParameterGetter_visit filt arg vals) ads vals
  end.

Definition ParameterGetter (filt : option (vnode -> bool)) (n : vnode)
  : gset ident :=
  ParameterGetter_visit (default _identity filt) n ∅.

(** The edges the getters follow: to the constraint of a parameter, to the
    positional and keyword arguments of an operator, to the adapters of a
    container. *)
Inductive child : vnode -> vnode -> Prop :=
| child_constraint i nm v e : child (Par i nm v (Some e)) e
| child_arg i nm u args kw a : a ∈ args -> child (Op i nm u args kw) a
| child_kw i nm u args kw ka : ka ∈ kw -> child (Op i nm u args kw) (snd ka)
| child_adapter i nm v ads a : a ∈ ads -> child (Container i nm v ads) a.

Definition reachable : vnode -> vnode -> Prop := rtc child.

(** *** class Printer *)

Definition _infix (u : unbound) : option string :=
  match u with
  | u_add => Some "+"
  | u_subtract => Some "-"
  | u_multiply => Some "*"
  | u_divide => Some "/"
  | u_power => Some "**"
  | _ => None
  end.

Definition _unary (u : unbound) : option string :=
  match u with
  | u_negative => Some "-"
  | _ => None
  end.

Definition startswith (c : ascii) (s : string) : bool :=
  match s with
  | String c' _ => Ascii.eqb c c'
  | EmptyString => false
  end.

Fixpoint endswith (c : ascii) (s : string) : bool :=
  match s with
  | EmptyString => false
  | String c' EmptyString => Ascii.eqb c c'
  | String _ r => endswith c r
  end.

(** [Printer.onParameter]; [str] of an integer value is its decimal
    writing. *)
Definition onParameter (nm : option string) (value : Z) (output : string)
  : string :=
  match nm with
  | None => output +:+ pretty value
  | Some nm =>
      if startswith "_" nm then output +:+ pretty value else output +:+ nm
  end.

(** The closing lines of [Printer.onOperator]. *)
Definition close_operator (instr output : string) : string :=
  let output :=
    if startswith "(" output && endswith ")" output then output
    else "(" +:+ output +:+ ")" in
  instr +:+ output.

(** The Printer: [output] after [n] has identified itself to it. *)
Fixpoint Printer (n : vnode) (output : string) : result string :=
  match n with
  | Par _ nm v _ => Ok (onParameter nm v output)
  | Container _ nm v _ => Ok (onParameter nm v output)
  | Op _ nm u args kw =>
      let instr := output in
      let output := "" in
      '(instr, output) ←
        match _infix u with
        | Some symbol =>
            (* _onInfix *)
            match args with
            | a0 :: rest =>
                output ← Printer a0 output;
                let output := output +:+ " " +:+ symbol +:+ " " in
                match rest with
                | a1 :: _ => output ← Printer a1 output; Ok (instr, output)
                | [] => Raise IndexError
                end
            | [] => Raise IndexError
            end
        | None =>
            match _unary u with
            | Some symbol =>
                (* _onUnary *)
                let output := output +:+ symbol in
                match args with
                | a0 :: _ => output ← Printer a0 output; Ok (instr, output)
                | [] => Raise IndexError
                end
            | None =>
                let instr := instr +:+ nm in
                '(output, numargs) ←
                  (fix over_args (l : list vnode) (output : string) (numargs : nat)
                     : result (string * nat) :=
                     match l with
                     | [] => Ok (output, numargs)
                     | arg :: l' =>
                         let output :=
                           if negb (numargs =? 0)%nat then output +:+ ", "
                           else output in
                         output ← Printer arg output;
                         over_args l' output (S numargs)
                     end) args output 0%nat;
                output ←
                  (fix over_kw (l : list (string * vnode)) (output : string)
                     : result string :=
                     match l with
                     | [] => Ok output
                     | ka :: l' =>
                         let output :=
                           if negb (numargs =? 0)%nat
                           then output +:+ ", " +:+ fst ka +:+ " = "
                           else output in
                         output ← Printer (snd ka) output;
                         over_kw l' output
                     end) kw output;
                Ok (instr, output)
            end
        end;
      Ok (close_operator instr output)
  end.

(** The two loops of the last branch of [Printer.onOperator], as functions
    of their own. *)
Fixpoint Printer_args (l : list vnode) (output : string) (numargs : nat)
  : result (string * nat) :=
  match l with
  | [] => Ok (output, numargs)
  | arg :: l' =>
      let output :=
        if negb (numargs =? 0)%nat then output +:+ ", " else output in
      output ← Printer arg output;
      Printer_args l' output (S numargs)
  end.

Fixpoint Printer_kw (numargs : nat) (l : list (string * vnode))
    (output : string) : result string :=
  match l with
  | [] => Ok output
  | ka :: l' =>
      let output :=
        if negb (numargs =? 0)%nat then output +:+ ", " +:+ fst ka +:+ " = "
        else output in
      output ← Printer (snd ka) output;
      Printer_kw numargs l' output
  end.

(** The text those loops add for already rendered arguments: positional
    renderings, the one at count 0 bare and the others after a comma;
    keyword renderings, each after [, key = ] when the count of positional
    arguments is not 0 and bare otherwise. *)
Fixpoint sep_args (numargs : nat) (rs : list string) : string :=
  match rs with
  | [] => ""
  | r :: rs' =>
      (if negb (numargs =? 0)%nat then ", " else "") +:+ r
      +:+ sep_args (S numargs) rs'
  end.

Fixpoint sep_kw (numargs : nat) (krs : list (string * string)) : string :=
  match krs with
  | [] => ""
  | kr :: krs' =>
      (if negb (numargs =? 0)%nat then ", " +:+ fst kr +:+ " = " else "")
      +:+ snd kr +:+ sep_kw numargs krs'
  end.

(** What a freshly reset Printer holds after visiting [n]. *)
Definition render (n : vnode) : result string := Printer n "".

End Visitors.

(** ** Stores, frames and sample objects used in the statements *)

Import Visitors.

Definition set_par (p : ident) (P : Param) (s : store) : store :=
  mkStore (<[p := P]> (pars s)) (observers s) (notified s).

(** What evaluating an equation may change: nothing but the stored values of
    constrained parameters. *)
Definition frame (s s1 : store) : Prop :=
  observers s1 = observers s /\ notified s1 = notified s /\
  forall q, match pars s !! q, pars s1 !! q with
            | Some A, Some B =>
                B = with_value (_value B) A /\ (constraint A = None -> B = A)
            | None, None => True
            | _, _ => False
            end.

(** Exceptions other than ValueError. *)
Definition not_ValueError (e : exception) : Prop := forall m, e <> ValueError m.

(** A store with two free parameters, p (object 0, value 1) and q (object 1,
    value 2), used to exercise the theorems below. *)
Definition free_par (nm : string) (v : Q) : Param :=
  mkParam nm (Some v) false false None (NegInf, PosInf).

Definition two_pars : store :=
  mkStore (<[0%nat := free_par "p" 1]> (<[1%nat := free_par "q" 2]> ∅)) ∅ [].

(** The equation 2*q over object [q]. *)
Definition twice (i q : ident) : Equation :=
  mkEquation i (Operator "multiply" multiply [Number 2; Leaf q]).

(** The store [two_pars] with p (object 0) constrained to 2*q. *)
Definition p_constrained : store :=
  set_par 0%nat (with_constraint (Some (twice 7 1)) (free_par "p" 1))
    (addObserver 7 0%nat two_pars).

(** A wrapped object that is just a number, read and written by accessors
    that ignore the attribute name. *)
Definition cell_getattr (o : Q) (_ : string) : result Q := Ok o.
Definition cell_setattr (_ : Q) (_ : string) (v : Q) : result Q := Ok v.
Definition cell_getter : Wrapper.Getter (Obj := Q) := fun o _ => Ok o.
Definition cell_setter : Wrapper.Setter (Obj := Q) := fun _ _ v => Ok v.

(** A wrapper around the number cell. *)
Definition cell_wrapper : @Wrapper.ParameterWrapper Q :=
  Wrapper.mkWrapper 0 (mkParam "scale" (Some 1%Q) false false None (NegInf, PosInf))
    (Wrapper.effective_getter cell_getattr (Some cell_getter) None)
    (Wrapper.effective_setter cell_setattr (Some cell_setter) None) None.

(** A parameter p constrained to mul(q): q is reachable from p through the
    constraint only. *)
Definition par_q : vnode := Par 1 (Some "q") 10 None.
Definition p_constrained_to_q : vnode :=
  Par 0 (Some "p") 20 (Some (Op 5 "mul" u_multiply [Par 2 None 2 None; par_q] [])).

(** Three parameters named x, y and z. *)
Definition par_x : vnode := Par 11 (Some "x") 1 None.
Definition par_y : vnode := Par 12 (Some "y") 2 None.
Definition par_z : vnode := Par 13 (Some "z") 3 None.

(** ** parameter.py: class ParameterProxy *)

Module Proxy.

(** A proxy owns a name and a reference to the Parameter it stands for. *)
Record ParameterProxy : Type := mkProxy { name : string; par : ident }.

(** Reading: the [value] property calls [self.par.getValue()], and
    [proxy.getValue] is found through [__getattr__] on the Parameter. *)
Definition getValue (fuel : nat) (self : ParameterProxy) (s : store)
  : result (option Q * store) :=
  ParameterPy.getValue fuel (par self) s.

(** Writing: the [value] property calls [self.par.setValue(val)]. *)
Definition setValue (self : ParameterProxy) (val : Q) (s : store)
  : result store :=
  ParameterPy.setValue (par self) val s.

End Proxy.

(** ** util/visitors.py: class NodeFinder *)

(** [found] after [n] has identified itself to a NodeFinder looking for the
    object [target]: each handler sets the flag when it is shown the object
    itself, returns at once when the flag is set, and otherwise passes on to
    the constraint, the arguments or the adapters. *)
Fixpoint NodeFinder (target : ident) (n : vnode) (found : bool) : bool :=
  match n with
  | Par i _ _ c =>
      let found := if (i =? target)%nat then true else found in
      if found then found
      else match c with
           | Some e => NodeFinder target e found
           | None => found
           end
  | Op i _ _ args kw =>
      let found := if (i =? target)%nat then true else found in
      if found then found
      else
        let found := fold_left (fun found arg => NodeFinder target arg found) args found in
        fold_left (fun found ka => NodeFinder target (snd ka) found) kw found
  | Container i _ _ ads =>
      let found := if (i =? target)%nat then true else found in
      if found then found
      else fold_left (fun found arg => NodeFinder target arg found) ads found
  end.

(** ** util/visitors.py: the arguments the Printer indexes *)

(** Whether every operator the Printer visits has the positional arguments
    its branch indexes: two for an infix function, one for a unary one.  An
    infix or unary operator shows the Printer only those arguments; any other
    operator shows it all its positional and keyword arguments. *)
Fixpoint indexable (n : vnode) : bool :=
  match n with
  | Par _ _ _ _ => true
  | Container _ _ _ _ => true
  | Op _ _ u args kw =>
      match _infix u with
      | Some _ =>
          match args with
          | a0 :: a1 :: _ => indexable a0 && indexable a1
          | _ => false
          end
      | None =>
          match _unary u with
          | Some _ =>
              match args with
              | a0 :: _ => indexable a0
              | [] => false
              end
          | None =>
              forallb indexable args && forallb (fun ka => indexable (snd ka)) kw
          end
      end
  end.

(** ** pdf/pdfgenerator.py: the scattering type *)

(** Python's [str.upper] on the letters a to z. *)
Definition upper_char (c : ascii) : ascii :=
  let n := nat_of_ascii c in
  if ((97 <=? n) && (n <=? 122))%nat then ascii_of_nat (n - 32) else c.

Fixpoint upper (s : string) : string :=
  match s with
  | EmptyString => EmptyString
  | String c r => String (upper_char c) (upper r)
  end.

Module PDFGeneratorPy.
Section Calculator.

(** The PDFCalculator of diffpy.srreal is an external object: its state and
    the method used here are taken as given. *)
Context {Calc : Type}.
Variable setScatteringFactorTable : string -> Calc -> Calc.

(** A value kept in [self.meta]. *)
Inductive metaval : Type := MStr (s : string) | MNum (q : Q).

Record PDFGenerator : Type := mkPDFGenerator {
  _calc : Calc;
  meta : gmap string metaval }.

(** [PDFGenerator.setScatteringType(self, type = "X")] *)
Definition setScatteringType (type : string) (self : PDFGenerator)
  : result PDFGenerator :=
  let type := upper type in
  if negb (String.eqb type "X" || String.eqb type "N") then
    Raise (ValueError ("Unknown scattering type '" +:+ type +:+ "'"))
  else
    Ok (mkPDFGenerator (setScatteringFactorTable type (_calc self))
          (<["stype" := MStr type]> (meta self))).

End Calculator.
End PDFGeneratorPy.

(** ** More sample objects *)

(** Two proxies, named a and b, for the parameter p (object 0). *)
Definition proxy_a : Proxy.ParameterProxy := Proxy.mkProxy "a" 0.
Definition proxy_b : Proxy.ParameterProxy := Proxy.mkProxy "b" 0.

(** The parameter p (object 0) constrained to twice itself. *)
Definition p_cyclic : store :=
  set_par 0%nat (with_constraint (Some (twice 7 0)) (free_par "p" 1)) two_pars.

(** An object holding named numbers, read and written by accessors that
    must be given the name, as the calculator's _getDoubleAttr and
    _setDoubleAttr are called throughout pdfgenerator.py. *)
Definition attrs_get : Wrapper.Getter (Obj := gmap string Q) :=
  fun o a =>
    match a with
    | Some nm =>
        match o !! nm with
        | Some v => Ok v
        | None => Raise AttributeError
        end
    | None => Raise TypeError
    end.

Definition attrs_set : Wrapper.Setter (Obj := gmap string Q) :=
  fun o a v =>
    match a with
    | Some nm => Ok (<[nm := v]> o)
    | None => Raise TypeError
    end.

Definition attrs_getattr (o : gmap string Q) (nm : string) : result Q :=
  attrs_get o (Some nm).

Definition attrs_setattr (o : gmap string Q) (nm : string) (v : Q)
  : result (gmap string Q) :=
  attrs_set o (Some nm) v.

Definition calc_attrs : gmap string Q :=
  <["qbroad" := 0%Q]> (<["scale" := 1%Q]> ∅).

(** Whether the leaf [p] occurs in a node. *)
Fixpoint mentions (p : ident) (n : node) : bool :=
  match n with
  | Number _ => false
  | Leaf q => (q =? p)%nat
  | Operator _ _ args => existsb (mentions p) args
  end.

(** Two runs, from [s] to [t] and from [s'] to [t'], that leave every
    parameter either with the same record or untouched in both. *)
Definition same_touch (s t s' t' : store) : Prop :=
  forall q, pars t' !! q = pars t !! q
            \/ (pars t' !! q = pars s' !! q /\ pars t !! q = pars s !! q).

(** The wrapper around the number cell, constrained to 2*q. *)
Definition cell_wrapper_constrained : @Wrapper.ParameterWrapper Q :=
  Wrapper.mkWrapper 0
    (mkParam "scale" (Some 1%Q) false false (Some (twice 7 1)) (NegInf, PosInf))
    (Wrapper.effective_getter cell_getattr (Some cell_getter) None)
    (Wrapper.effective_setter cell_setattr (Some cell_setter) None) None.

(** * Properties *)

(** ** Evaluation *)

(** Induction over a node and, simultaneously, over its children. *)
Lemma node_ind' (P : node -> Prop)
  (HNumber : forall q, P (Number q))
  (HLeaf : forall p, P (Leaf p))
  (HOperator : forall name f args, Forall P args -> P (Operator name f args)) :
  forall n, P n.
Proof.
  fix IH 1. intros [q | p | name f args].
  - apply HNumber.
  - apply HLeaf.
  - apply HOperator. induction args as [| a args IHargs].
    + constructor.
    + constructor; [apply IH | exact IHargs].
Qed.

Lemma evaluate_Operator {St} (leaf_value : ident -> St -> result (Q * St))
    name f args s :
  evaluate leaf_value (Operator name f args) s =
  ('(vs, s') ← evaluate_args leaf_value args s; v ← apply_ufunc f vs; Ok (v, s')).
Proof.
  cbn [evaluate].
  assert (Hloop : forall l s0,
    (fix evaluate_args (l : list node) (s : St) : result (list Q * St) :=
        match l with
        | [] => Ok ([], s)
        | a :: l' =>
            '(v, s1) ← evaluate leaf_value a s;
            '(vs, s2) ← evaluate_args l' s1;
            Ok (v :: vs, s2)
        end) l s0 = evaluate_args leaf_value l s0).
  { induction l as [| a l IHl]; intros s0; [reflexivity |].
    cbn [evaluate_args]. destruct (evaluate leaf_value a s0) as [[v s1] | e]; [| reflexivity].
    cbn. rewrite IHl. reflexivity. }
  rewrite Hloop. reflexivity.
Qed.

Lemma evaluate_env_state n e :
  forall v e', evaluate env_leaf n e = Ok (v, e') -> e' = e.
Proof.
  induction n as [q | p | name f args IH] using node_ind'; intros v e' H.
  - cbn in H. congruence.
  - cbn in H. unfold env_leaf in H. destruct (e p); congruence.
  - rewrite evaluate_Operator in H.
    assert (Hargs : forall vs e1, evaluate_args env_leaf args e = Ok (vs, e1) -> e1 = e).
    { clear H. induction IH as [| a l Ha _ IHl]; intros vs e1 H.
      - cbn in H. congruence.
      - cbn [evaluate_args] in H.
        destruct (evaluate env_leaf a e) as [[v1 s1] | ex] eqn:Ea; [| discriminate].
        specialize (Ha _ _ eq_refl). subst s1. cbn in H.
        destruct (evaluate_args env_leaf l e) as [[vs1 s2] | ex] eqn:El; [| discriminate].
        cbn in H. injection H as _ <-. eapply IHl. reflexivity. }
    destruct (evaluate_args env_leaf args e) as [[vs s1] | ex] eqn:Ea; [| discriminate].
    cbn in H. destruct (apply_ufunc f vs); cbn in H; [| discriminate].
    injection H as _ <-. eapply Hargs. reflexivity.
Qed.

Lemma evaluate_args_env e l :
  evaluate_args env_leaf l e = (vs ← eval_args e l; Ok (vs, e)).
Proof.
  induction l as [| a l IHl]; [reflexivity |].
  cbn [evaluate_args eval_args]. unfold eval at 1.
  destruct (evaluate env_leaf a e) as [[v s1] | ex] eqn:Ea; [| reflexivity].
  apply evaluate_env_state in Ea. subst s1. cbn. rewrite IHl.
  destruct (eval_args e l); reflexivity.
Qed.

Lemma eval_Operator e name f args :
  eval e (Operator name f args) = (vs ← eval_args e args; apply_ufunc f vs).
Proof.
  unfold eval. rewrite evaluate_Operator, evaluate_args_env.
  destruct (eval_args e args) as [vs | ex]; [| reflexivity].
  cbn. destruct (apply_ufunc f vs); reflexivity.
Qed.

Lemma eval_Number e q : eval e (Number q) = Ok q.
Proof. reflexivity. Qed.

(** ** restrain.py: the restraint node *)

Lemma restrain_unfold eq lb ub sig :
  Restrain.restrain eq lb ub sig =
  Ok (restraint_node eq lb (default lb ub) (default (Number 1) sig)).
Proof. destruct ub, sig; reflexivity. Qed.

Lemma eval_restraint_node e eq lb ub sig v l u s :
  eval e eq = Ok v -> eval e lb = Ok l -> eval e ub = Ok u ->
  eval e sig = Ok s ->
  eval e (restraint_node eq lb ub sig) =
  apply_ufunc divide [Qmax (l - v) (Qmax 0 (v - u)); s].
Proof.
  intros Hv Hl Hu Hs. unfold restraint_node.
  repeat (rewrite eval_Operator; cbn [eval_args]).
  rewrite Hv, Hl, Hu, Hs, eval_Number. reflexivity.
Qed.

(** With sigma equal to zero the division only fails once the returned node
    is evaluated. *)
Lemma restraint_zero_sigma_fails_at_evaluation e eq lb ub v l u :
  eval e eq = Ok v -> eval e lb = Ok l -> eval e (default lb ub) = Ok u ->
  exists n, Restrain.restrain eq lb ub (Some (Number 0)) = Ok n /\
            eval e n = Raise (EvaluationError "division by zero").
Proof.
  intros Hv Hl Hu. rewrite restrain_unfold. eexists; split; [reflexivity |].
  cbn [default]. erewrite eval_restraint_node by (eassumption || reflexivity).
  reflexivity.
Qed.

(** C1 (as stated, refuted): with sigma = 0 the call does not fail; it
    returns a node. *)
Lemma C1_restrain_zero_sigma_returns :
  is_Ok (Restrain.restrain (Leaf 0) (Number 0) (Some (Number 10)) (Some (Number 0)))
  /\ forall ex, Restrain.restrain (Leaf 0) (Number 0) (Some (Number 10)) (Some (Number 0))
                <> Raise ex.
Proof.
  split; [eexists; reflexivity | intros ex H; discriminate H].
Qed.

(** C1 (amended): restrain performs no check on sigma.  For every equation,
    bounds and sigma, zero included, the call returns the node
    maximum(lb - eq, maximum(0, eq - ub)) / sigma, named "restraint", with
    ub replaced by lb when absent and sigma by 1 when absent; sigma is only
    an operand of the returned division. *)
Theorem C1_restrain_never_checks_sigma (eq lb : node) (ub sig : option node) :
  Restrain.restrain eq lb ub sig =
  Ok (restraint_node eq lb (default lb ub) (default (Number 1) sig))
  /\ node_name (restraint_node eq lb (default lb ub) (default (Number 1) sig))
     = Some "restraint".
Proof. split; [apply restrain_unfold | reflexivity]. Qed.

Local Open Scope Q_scope.

Lemma Qeq_bool_false (s : Q) : ~ s == 0 -> Qeq_bool s 0 = false.
Proof.
  intros Hs. destruct (Qeq_bool s 0) eqn:E; [| reflexivity].
  apply Qeq_bool_iff in E. contradiction.
Qed.

Lemma Qmax3 (a b : Q) : Qmax a (Qmax 0 b) == Qmax 0 (Qmax a b).
Proof.
  rewrite Q.max_assoc, (Q.max_comm a 0), <- Q.max_assoc. reflexivity.
Qed.

(** C2 (as stated, refuted): with crossed bounds lb = 10 > ub = 0 and
    v = 3 > ub the restraint is 7, not (v - ub)/sigma = 3. *)
Lemma C2_crossed_bounds :
  let e : env := fun _ => Some 3 in
  exists n r,
    Restrain.restrain (Leaf 0%nat) (Number 10) (Some (Number 0)) (Some (Number 1)) = Ok n
    /\ eval e n = Ok r /\ r == 7 /\ 0 < 3 /\ ~ r == (3 - 0) / 1.
Proof.
  intros e. eexists; eexists. split; [reflexivity |].
  split; [vm_compute; reflexivity |].
  split; [reflexivity |]. split; [reflexivity |].
  intros H. vm_compute in H. discriminate H.
Qed.

(** C2 (amended): for every equation value v, bounds lb and ub (ub = lb when
    absent) and non-zero sigma, the restraint built by restrain evaluates to
    max(0, lb - v, v - ub) / sigma; it is zero whenever lb <= v <= ub, and
    provided lb <= ub it equals (lb - v)/sigma when v < lb and
    (v - ub)/sigma when v > ub. *)
Theorem C2_restraint_value (e : env) (eq lb sig : node) (ub : option node)
    (v l u s : Q) :
  eval e eq = Ok v -> eval e lb = Ok l -> eval e (default lb ub) = Ok u ->
  eval e sig = Ok s -> ~ s == 0 ->
  exists n r,
    Restrain.restrain eq lb ub (Some sig) = Ok n /\ eval e n = Ok r /\
    r == Qmax 0 (Qmax (l - v) (v - u)) / s /\
    (l <= v -> v <= u -> r == 0) /\
    (l <= u -> v < l -> r == (l - v) / s) /\
    (l <= u -> u < v -> r == (v - u) / s).
Proof.
  intros Hv Hl Hu Hs Hnz. rewrite restrain_unfold. cbn [default].
  exists (restraint_node eq lb (default lb ub) sig).
  exists (Qmax (l - v) (Qmax 0 (v - u)) / s).
  split; [reflexivity |]. split.
  { erewrite eval_restraint_node by eassumption.
    cbn [apply_ufunc]. rewrite Qeq_bool_false by assumption. reflexivity. }
  split; [rewrite Qmax3; reflexivity |].
  split; [| split].
  - intros H1 H2.
    assert (Hm : Qmax (l - v) (Qmax 0 (v - u)) == 0).
    { rewrite (Q.max_l 0 (v - u)) by lra. apply Q.max_r. lra. }
    rewrite Hm. field. assumption.
  - intros H1 H2.
    assert (Hm : Qmax (l - v) (Qmax 0 (v - u)) == l - v).
    { apply Q.max_l. apply Q.max_lub; lra. }
    rewrite Hm. reflexivity.
  - intros H1 H2.
    assert (Hm : Qmax (l - v) (Qmax 0 (v - u)) == v - u).
    { rewrite (Q.max_r 0 (v - u)) by lra. apply Q.max_r. lra. }
    rewrite Hm. reflexivity.
Qed.

Lemma C2_restraint_value_witness :
  let e : env := fun _ => Some 11 in
  exists n r,
    Restrain.restrain (Leaf 0%nat) (Number 0) (Some (Number 10)) (Some (Number 1)) = Ok n
    /\ eval e n = Ok r /\
    r == Qmax 0 (Qmax (0 - 11) (11 - 10)) / 1 /\
    (0 <= 11 -> 11 <= 10 -> r == 0) /\
    (0 <= 10 -> 11 < 0 -> r == (0 - 11) / 1) /\
    (0 <= 10 -> 10 < 11 -> r == (11 - 10) / 1).
Proof.
  intros e.
  apply (C2_restraint_value e (Leaf 0%nat) (Number 0) (Number 1) (Some (Number 10))
           11 0 10 1); try reflexivity.
  intros H; vm_compute in H; discriminate H.
Defined.

Local Close Scope Q_scope.

(** ** The store *)

Lemma get_Some p s P : pars s !! p = Some P -> get p s = Ok P.
Proof. unfold get. intros ->. reflexivity. Qed.

Lemma get_Ok p s P : get p s = Ok P -> pars s !! p = Some P.
Proof. unfold get. destruct (pars s !! p); congruence. Qed.

Lemma update_par_Some p f s P :
  pars s !! p = Some P -> update_par p f s = Ok (set_par p (f P) s).
Proof. intros H. unfold update_par. rewrite (get_Some _ _ _ H). reflexivity. Qed.

Lemma pars_set_par_eq p P s : pars (set_par p P s) !! p = Some P.
Proof. cbn. apply lookup_insert_eq. Qed.

Lemma pars_set_par_ne p q P s : p <> q -> pars (set_par p P s) !! q = pars s !! q.
Proof. intros H. cbn. apply lookup_insert_ne. exact H. Qed.

Lemma with_value_id P : with_value (_value P) P = P.
Proof. destruct P; reflexivity. Qed.

Lemma frame_refl s : frame s s.
Proof.
  split; [reflexivity |]. split; [reflexivity |].
  intros q. destruct (pars s !! q) as [A |]; [| exact I].
  split; [symmetry; apply with_value_id | reflexivity].
Qed.

Lemma frame_trans s1 s2 s3 : frame s1 s2 -> frame s2 s3 -> frame s1 s3.
Proof.
  intros (Ho1 & Hn1 & H1) (Ho2 & Hn2 & H2).
  split; [congruence |]. split; [congruence |].
  intros q. specialize (H1 q). specialize (H2 q).
  destruct (pars s1 !! q) as [A |], (pars s2 !! q) as [B |],
    (pars s3 !! q) as [C |]; try tauto.
  destruct H1 as [HB HBA], H2 as [HC HCB]. split.
  - rewrite HC, HB. destruct A; reflexivity.
  - intros HA. specialize (HBA HA). subst B. auto.
Qed.

Lemma frame_lookup s s1 p P :
  frame s s1 -> pars s !! p = Some P ->
  exists P1, pars s1 !! p = Some P1 /\ P1 = with_value (_value P1) P
             /\ (constraint P = None -> P1 = P).
Proof.
  intros (_ & _ & H) HP. specialize (H p). rewrite HP in H.
  destruct (pars s1 !! p) as [B |]; [| contradiction].
  exists B. tauto.
Qed.

Lemma frame_set_value s p P v :
  pars s !! p = Some P -> constraint P <> None ->
  frame s (set_par p (with_value v P) s).
Proof.
  intros HP Hc. split; [reflexivity |]. split; [reflexivity |].
  intros q. destruct (decide (p = q)) as [<- | Hne].
  - rewrite HP, pars_set_par_eq. split; [reflexivity | contradiction].
  - rewrite pars_set_par_ne by exact Hne.
    destruct (pars s !! q) as [A |]; [| exact I].
    split; [symmetry; apply with_value_id | reflexivity].
Qed.

Section EvaluateInvariants.
Context {St : Type}.
Variable leaf_value : ident -> St -> result (Q * St).
Variable R : St -> St -> Prop.
Hypothesis R_refl : forall s, R s s.
Hypothesis R_trans : forall s1 s2 s3, R s1 s2 -> R s2 s3 -> R s1 s3.
Hypothesis leaf_R : forall p s v s', leaf_value p s = Ok (v, s') -> R s s'.

Lemma evaluate_preserves n :
  forall s v s', evaluate leaf_value n s = Ok (v, s') -> R s s'.
Proof using R_refl R_trans leaf_R.
  induction n as [q | p | nm f args IH] using node_ind'; intros s v s' H.
  - cbn in H. injection H as _ <-. apply R_refl.
  - cbn in H. eapply leaf_R. exact H.
  - rewrite evaluate_Operator in H.
    assert (Hargs : forall s0 vs s1,
              evaluate_args leaf_value args s0 = Ok (vs, s1) -> R s0 s1).
    { clear H. induction IH as [| a l Ha _ IHl]; intros s0 vs s1 H.
      - cbn in H. injection H as _ <-. apply R_refl.
      - cbn [evaluate_args] in H.
        destruct (evaluate leaf_value a s0) as [[v1 t1] | ex] eqn:Ea; [| discriminate].
        cbn in H.
        destruct (evaluate_args leaf_value l t1) as [[vs1 t2] | ex] eqn:El;
          [| discriminate].
        cbn in H. injection H as _ <-.
        eapply R_trans; [eapply Ha; exact Ea | eapply IHl; exact El]. }
    destruct (evaluate_args leaf_value args s) as [[vs s1] | ex] eqn:Ea; [| discriminate].
    cbn in H. destruct (apply_ufunc f vs); cbn in H; [| discriminate].
    injection H as _ <-. eapply Hargs. exact Ea.
Qed.

Hypothesis leaf_raises :
  forall p s e, leaf_value p s = Raise e -> not_ValueError e.

Lemma apply_ufunc_raises f vs e :
  apply_ufunc f vs = Raise e -> not_ValueError e.
Proof using Type.
  intros H m ->. unfold apply_ufunc in H.
  repeat (match type of H with
          | context [match ?x with _ => _ end] => destruct x
          end; try discriminate).
Qed.

Lemma evaluate_raises n :
  forall s e, evaluate leaf_value n s = Raise e -> not_ValueError e.
Proof using leaf_raises.
  induction n as [q | p | nm f args IH] using node_ind'; intros s e H.
  - discriminate.
  - cbn in H. eapply leaf_raises. exact H.
  - rewrite evaluate_Operator in H.
    assert (Hargs : forall s0 e0,
              evaluate_args leaf_value args s0 = Raise e0 -> not_ValueError e0).
    { clear H. induction IH as [| a l Ha _ IHl]; intros s0 e0 H.
      - discriminate.
      - cbn [evaluate_args] in H.
        destruct (evaluate leaf_value a s0) as [[v1 t1] | ex] eqn:Ea.
        + cbn in H.
          destruct (evaluate_args leaf_value l t1) as [[vs1 t2] | ex] eqn:El;
            [discriminate |].
          cbn in H. injection H as <-. eapply IHl. exact El.
        + cbn in H. injection H as <-. eapply Ha. exact Ea. }
    destruct (evaluate_args leaf_value args s) as [[vs s1] | ex] eqn:Ea.
    + cbn in H. destruct (apply_ufunc f vs) eqn:Ef; cbn in H; [discriminate |].
      injection H as <-. eapply apply_ufunc_raises. exact Ef.
    + cbn in H. injection H as <-. eapply Hargs. exact Ea.
Qed.

End EvaluateInvariants.

(** ** parameter.py: getValue and the calls of an equation *)

Lemma as_number_Ok gv p s v s' :
  as_number gv p s = Ok (v, s') -> gv p s = Ok (Some v, s').
Proof.
  unfold as_number. destruct (gv p s) as [[[w |] t] | ex]; cbn; congruence.
Qed.

Lemma as_number_raises gv p s e :
  (forall e0, gv p s = Raise e0 -> not_ValueError e0) ->
  as_number gv p s = Raise e -> not_ValueError e.
Proof.
  intros Hgv. unfold as_number.
  destruct (gv p s) as [[[w |] t] | ex] eqn:E; cbn; intros H.
  - discriminate.
  - injection H as <-. intros m Hm. discriminate.
  - injection H as <-. apply Hgv. reflexivity.
Qed.

Lemma getValue_S k p s :
  ParameterPy.getValue (S k) p s =
  (P ← get p s;
   match constraint P with
   | Some eq =>
       '(v, s1) ← ParameterPy.call k eq s;
       s2 ← update_par p (with_value (Some v)) s1;
       Argument_getValue p s2
   | None => Argument_getValue p s
   end).
Proof. reflexivity. Qed.

Lemma getValue_frame fuel :
  forall p s ov s', ParameterPy.getValue fuel p s = Ok (ov, s') -> frame s s'.
Proof.
  induction fuel as [| k IH]; intros p s ov s' H; [discriminate |].
  rewrite getValue_S in H.
  destruct (get p s) as [P | ex] eqn:HP; [| discriminate]. cbn in H.
  apply get_Ok in HP.
  destruct (constraint P) as [eq |] eqn:Hc.
  - destruct (ParameterPy.call k eq s) as [[v s1] | ex] eqn:Hcall; [| discriminate].
    cbn in H.
    assert (Hf : frame s s1).
    { unfold ParameterPy.call in Hcall.
      eapply (evaluate_preserves _ frame frame_refl frame_trans); [| exact Hcall].
      intros q t w t' Hq. apply as_number_Ok in Hq. eapply IH. exact Hq. }
    destruct (frame_lookup _ _ _ _ Hf HP) as (P1 & HP1 & HP1eq & _).
    rewrite (update_par_Some _ _ _ _ HP1) in H. cbn in H.
    unfold Argument_getValue in H.
    rewrite (get_Some _ _ _ (pars_set_par_eq _ _ _)) in H. cbn in H.
    injection H as _ <-.
    eapply frame_trans; [exact Hf |].
    apply frame_set_value; [exact HP1 |].
    rewrite HP1eq. cbn. rewrite Hc. discriminate.
  - unfold Argument_getValue in H. rewrite (get_Some _ _ _ HP) in H. cbn in H.
    injection H as _ <-. apply frame_refl.
Qed.

Lemma call_frame fuel eq s v s' :
  ParameterPy.call fuel eq s = Ok (v, s') -> frame s s'.
Proof.
  unfold ParameterPy.call.
  apply (evaluate_preserves _ frame frame_refl frame_trans).
  intros q t w t' Hq. apply as_number_Ok in Hq. eapply getValue_frame. exact Hq.
Qed.

Lemma get_raises p s e : get p s = Raise e -> not_ValueError e.
Proof.
  unfold get. destruct (pars s !! p); [discriminate |].
  intros H. injection H as <-. intros m Hm. discriminate.
Qed.

Lemma getValue_raises fuel :
  forall p s e, ParameterPy.getValue fuel p s = Raise e -> not_ValueError e.
Proof.
  induction fuel as [| k IH]; intros p s e H.
  - cbn in H. injection H as <-. intros m Hm. discriminate.
  - rewrite getValue_S in H.
    destruct (get p s) as [P | ex] eqn:HP.
    2:{ cbn in H. injection H as <-. eapply get_raises. exact HP. }
    cbn in H. apply get_Ok in HP.
    destruct (constraint P) as [eq |] eqn:Hc.
    + destruct (ParameterPy.call k eq s) as [[v s1] | ex] eqn:Hcall.
      * cbn in H. apply call_frame in Hcall.
        destruct (frame_lookup _ _ _ _ Hcall HP) as (P1 & HP1 & _).
        rewrite (update_par_Some _ _ _ _ HP1) in H. cbn in H.
        unfold Argument_getValue in H.
        rewrite (get_Some _ _ _ (pars_set_par_eq _ _ _)) in H. discriminate.
      * cbn in H. injection H as <-. unfold ParameterPy.call in Hcall.
        eapply evaluate_raises; [| exact Hcall].
        intros q t e0 Hq. eapply as_number_raises; [| exact Hq].
        intros e1 He1. eapply IH. exact He1.
    + unfold Argument_getValue in H. rewrite (get_Some _ _ _ HP) in H. discriminate.
Qed.

Lemma call_raises fuel eq s e :
  ParameterPy.call fuel eq s = Raise e -> not_ValueError e.
Proof.
  unfold ParameterPy.call. apply evaluate_raises.
  intros q t e0 Hq. eapply as_number_raises; [| exact Hq].
  intros e1 He1. eapply getValue_raises. exact He1.
Qed.

(** An unconstrained parameter answers getValue with its stored value and
    leaves the store alone. *)
Lemma getValue_unconstrained k p s P :
  pars s !! p = Some P -> constraint P = None ->
  ParameterPy.getValue (S k) p s = Ok (_value P, s).
Proof.
  intros HP Hc. rewrite getValue_S, (get_Some _ _ _ HP). cbn. rewrite Hc.
  unfold Argument_getValue. rewrite (get_Some _ _ _ HP). reflexivity.
Qed.

Lemma Argument_setValue_spec p val s P :
  pars s !! p = Some P ->
  exists w, (w == val)%Q /\
    (Argument_setValue p val s = Ok s /\ _value P = Some w \/
     Argument_setValue p val s = Ok (notify p (set_par p (with_value (Some val) P) s))
     /\ w = val).
Proof.
  intros HP. unfold Argument_setValue. rewrite (get_Some _ _ _ HP). cbn.
  destruct (differs val (_value P)) eqn:Hd.
  - exists val. split; [reflexivity |]. right.
    rewrite (update_par_Some _ _ _ _ HP). split; reflexivity.
  - unfold differs in Hd. destruct (_value P) as [w |]; [| discriminate].
    exists w. apply negb_false_iff, Qeq_bool_iff in Hd.
    split; [symmetry; exact Hd |]. left. split; reflexivity.
Qed.

(** ** constraint.py: Constraint.constrain *)

Lemma Argument_setValue_Ok p val s P :
  pars s !! p = Some P ->
  exists s2 P2 w,
    Argument_setValue p val s = Ok s2 /\ pars s2 !! p = Some P2 /\
    P2 = with_value (Some w) P /\ (w == val)%Q.
Proof.
  intros HP. destruct (Argument_setValue_spec p val s P HP) as (w & Hw & [[H1 H2] | [H1 H2]]).
  - exists s, P, w. repeat split; try assumption.
    rewrite <- H2. symmetry. apply with_value_id.
  - subst w. eexists _, _, val. split; [exact H1 |].
    split; [apply pars_set_par_eq |]. split; reflexivity.
Qed.

(** C3: Constraint.constrain(par, eq) raises its conflict error (a
    ValueError in the code) if and only if par.const is true or par is
    already constrained.  Otherwise, when eq evaluates to v, the call
    succeeds: par is marked constrained, par and eq are stored in the
    Constraint, and the forced update leaves par's value equal to v. *)
Theorem C3_constrain_guard_and_update (fuel : nat)
    (self : ConstraintPy.Constraint) (p : ident) (e : Equation) (s : store)
    (P : Param) :
  pars s !! p = Some P ->
  (raises_ValueError (ConstraintPy.constrain fuel self p e s)
     <-> const P = true \/ constrained P = true)
  /\ (forall v s1,
        const P = false -> constrained P = false ->
        ParameterPy.call fuel e (set_par p (with_constrained true P) s) = Ok (v, s1) ->
        exists s2 P2 w,
          ConstraintPy.constrain fuel self p e s
            = Ok (ConstraintPy.mkConstraint (Some p) (Some e), s2)
          /\ pars s2 !! p = Some P2 /\ constrained P2 = true
          /\ _value P2 = Some w /\ (w == v)%Q).
Proof.
  intros HP.
  assert (Hok : forall v s1,
    const P = false -> constrained P = false ->
    ParameterPy.call fuel e (set_par p (with_constrained true P) s) = Ok (v, s1) ->
    exists s2 P2 w,
      ConstraintPy.constrain fuel self p e s
        = Ok (ConstraintPy.mkConstraint (Some p) (Some e), s2)
      /\ pars s2 !! p = Some P2 /\ constrained P2 = true
      /\ _value P2 = Some w /\ (w == v)%Q).
  { intros v s1 Hconst Hcons Hcall.
    unfold ConstraintPy.constrain. rewrite (get_Some _ _ _ HP). cbn.
    rewrite Hconst, Hcons, (update_par_Some _ _ _ _ HP). cbn.
    unfold ConstraintPy.update. cbn. rewrite Hcall. cbn.
    apply call_frame in Hcall.
    destruct (frame_lookup _ _ _ _ Hcall (pars_set_par_eq _ _ _))
      as (P1 & HP1 & HP1eq & _).
    destruct (Argument_setValue_Ok p v s1 P1 HP1) as (s2 & P2 & w & Hset & HP2 & HP2eq & Hw).
    exists s2, P2, w. rewrite Hset. cbn. split; [reflexivity |].
    split; [exact HP2 |]. subst P2. rewrite HP1eq. cbn. auto. }
  split; [| exact Hok]. split.
  - intros [msg Hmsg].
    destruct (const P) eqn:Hconst; [left; reflexivity |].
    destruct (constrained P) eqn:Hcons; [right; reflexivity |].
    exfalso.
    destruct (ParameterPy.call fuel e (set_par p (with_constrained true P) s))
      as [[v s1] | ex] eqn:Hcall.
    + destruct (Hok v s1 eq_refl eq_refl eq_refl) as (s2 & P2 & w & Hc & _).
      rewrite Hc in Hmsg. discriminate.
    + unfold ConstraintPy.constrain in Hmsg. rewrite (get_Some _ _ _ HP) in Hmsg.
      cbn in Hmsg. rewrite Hconst, Hcons, (update_par_Some _ _ _ _ HP) in Hmsg.
      cbn in Hmsg. unfold ConstraintPy.update in Hmsg. cbn in Hmsg.
      rewrite Hcall in Hmsg. cbn in Hmsg. injection Hmsg as ->.
      apply call_raises in Hcall. exact (Hcall msg eq_refl).
  - intros H. unfold ConstraintPy.constrain. rewrite (get_Some _ _ _ HP). cbn.
    destruct (const P); [eexists; reflexivity |].
    destruct H as [H | H]; [discriminate |]. rewrite H. eexists; reflexivity.
Qed.

Lemma C3_constrain_guard_and_update_witness :
  (raises_ValueError
     (ConstraintPy.constrain 2 ConstraintPy.init 0%nat (twice 7 1) two_pars)
     <-> const (free_par "p" 1) = true \/ constrained (free_par "p" 1) = true)
  /\ (forall v s1,
        const (free_par "p" 1) = false -> constrained (free_par "p" 1) = false ->
        ParameterPy.call 2 (twice 7 1)
          (set_par 0%nat (with_constrained true (free_par "p" 1)) two_pars) = Ok (v, s1) ->
        exists s2 P2 w,
          ConstraintPy.constrain 2 ConstraintPy.init 0%nat (twice 7 1) two_pars
            = Ok (ConstraintPy.mkConstraint (Some 0%nat) (Some (twice 7 1)), s2)
          /\ pars s2 !! 0%nat = Some P2 /\ constrained P2 = true
          /\ _value P2 = Some w /\ (w == v)%Q).
Proof.
  apply (C3_constrain_guard_and_update 2 ConstraintPy.init 0%nat (twice 7 1)
           two_pars (free_par "p" 1)).
  reflexivity.
Defined.

(** The forced update, run on the store [two_pars]: p becomes 2*q = 4. *)
Example constrain_two_pars :
  exists s2,
    ConstraintPy.constrain 2 ConstraintPy.init 0%nat (twice 7 1) two_pars
      = Ok (ConstraintPy.mkConstraint (Some 0%nat) (Some (twice 7 1)), s2)
    /\ (_value <$> pars s2 !! 0%nat) = Some (Some (2 * 2)%Q)
    /\ (constrained <$> pars s2 !! 0%nat) = Some true.
Proof. eexists. split; [vm_compute; reflexivity |]. split; reflexivity. Qed.

(** ** parameter.py: Parameter.getValue, constrain and unconstrain *)

Lemma getValue_constrained k p s P eq v s1 :
  pars s !! p = Some P -> constraint P = Some eq ->
  ParameterPy.call k eq s = Ok (v, s1) ->
  exists P1, pars s1 !! p = Some P1 /\ P1 = with_value (_value P1) P /\
    ParameterPy.getValue (S k) p s
      = Ok (Some v, set_par p (with_value (Some v) P1) s1).
Proof.
  intros HP Hc Hcall. rewrite getValue_S, (get_Some _ _ _ HP). cbn.
  rewrite Hc, Hcall. cbn.
  destruct (frame_lookup _ _ _ _ (call_frame _ _ _ _ _ Hcall) HP) as (P1 & HP1 & HP1eq & _).
  exists P1. split; [exact HP1 |]. split; [exact HP1eq |].
  rewrite (update_par_Some _ _ _ _ HP1). cbn. unfold Argument_getValue.
  rewrite (get_Some _ _ _ (pars_set_par_eq _ _ _)). reflexivity.
Qed.

Lemma call_twice fuel i q s Q vq :
  pars s !! q = Some Q -> constraint Q = None -> _value Q = Some vq ->
  ParameterPy.call (S fuel) (twice i q) s = Ok ((2 * vq)%Q, s).
Proof.
  intros HQ Hc Hv. unfold ParameterPy.call, twice. cbn [root].
  rewrite evaluate_Operator. cbn [evaluate_args evaluate mbind result_bind].
  unfold as_number. rewrite (getValue_unconstrained _ _ _ _ HQ Hc), Hv.
  reflexivity.
Qed.

Lemma constrain_twice k p q i s P Q vq :
  p <> q -> pars s !! p = Some P -> pars s !! q = Some Q ->
  constraint Q = None -> _value Q = Some vq ->
  ParameterPy.constrain (S k) p (twice i q) s =
  Ok (notify p
        (set_par p (with_value (Some (2 * vq)%Q) (with_constraint (Some (twice i q)) P))
           (addObserver i p (set_par p (with_constraint (Some (twice i q)) P) s)))).
Proof.
  intros Hne HP HQ Hc Hv. unfold ParameterPy.constrain.
  rewrite (update_par_Some _ _ _ _ HP). cbn [mbind result_bind eq_id twice].
  set (sA := addObserver i p _).
  assert (HpA : pars sA !! p = Some (with_constraint (Some (twice i q)) P)).
  { apply pars_set_par_eq. }
  assert (HqA : pars sA !! q = Some Q).
  { unfold sA. cbn. rewrite lookup_insert_ne by exact Hne. exact HQ. }
  unfold ParameterPy._flush. rewrite (get_Some _ _ _ HpA).
  cbn [mbind result_bind constraint with_constraint].
  fold (twice i q). rewrite (call_twice k i q sA Q vq HqA Hc Hv).
  cbn [mbind result_bind]. rewrite (update_par_Some _ _ _ _ HpA). reflexivity.
Qed.

(** Parameter.constrain has no guard of its own: whenever the equation
    evaluates, it stores the equation, registers the observer and leaves the
    parameter with the equation's value, whatever the parameter was before. *)
Lemma Parameter_constrain_stores k p e s P v s1 :
  pars s !! p = Some P ->
  ParameterPy.call k e
    (addObserver (eq_id e) p (set_par p (with_constraint (Some e) P) s))
    = Ok (v, s1) ->
  exists s2 P2,
    ParameterPy.constrain k p e s = Ok s2 /\ pars s2 !! p = Some P2 /\
    constraint P2 = Some e /\ _value P2 = Some v /\
    ((eq_id e, p) ∈ observers s2) /\ (notified s2 = notified s ++ [p]).
Proof.
  intros HP Hcall. unfold ParameterPy.constrain.
  rewrite (update_par_Some _ _ _ _ HP). cbn [mbind result_bind].
  set (sA := addObserver (eq_id e) p _) in *.
  assert (HpA : pars sA !! p = Some (with_constraint (Some e) P))
    by apply pars_set_par_eq.
  unfold ParameterPy._flush. rewrite (get_Some _ _ _ HpA).
  cbn [mbind result_bind constraint with_constraint]. rewrite Hcall.
  cbn [mbind result_bind].
  destruct (call_frame _ _ _ _ _ Hcall) as (Hobs & Hnot & _).
  destruct (frame_lookup _ _ _ _ (call_frame _ _ _ _ _ Hcall) HpA)
    as (P1 & HP1 & HP1eq & _).
  rewrite (update_par_Some _ _ _ _ HP1). cbn [mbind result_bind].
  eexists _, _. split; [reflexivity |].
  split; [cbn; apply lookup_insert_eq |].
  split; [rewrite HP1eq; reflexivity |]. split; [reflexivity |].
  split.
  - cbn. rewrite Hobs. unfold sA. cbn.
    apply elem_of_union_r, elem_of_singleton. reflexivity.
  - cbn. rewrite Hnot. reflexivity.
Qed.

(** Run on a parameter that is already constrained, it replaces the
    constraint without complaint. *)
Example Parameter_constrain_again :
  exists s2,
    ParameterPy.constrain 2 0%nat (twice 8 1) p_constrained = Ok s2 /\
    (constraint <$> pars s2 !! 0%nat) = Some (Some (twice 8 1)).
Proof. eexists. split; [vm_compute; reflexivity | reflexivity]. Qed.

(** C4: for a constrained Parameter p whose constraint evaluates to v,
    p.getValue() evaluates the constraint, stores v as p's value and returns
    v; for an unconstrained Parameter it returns the stored value and leaves
    the store as it is.  After constrain(p, 2*q) on a free parameter q and
    q.setValue(10), p.getValue() returns 20. *)
Theorem C4_getValue_follows_constraint (k : nat) (p : ident) (s : store)
    (P : Param) :
  pars s !! p = Some P ->
  (forall eq v s1,
      constraint P = Some eq -> ParameterPy.call k eq s = Ok (v, s1) ->
      exists P1 s2,
        pars s1 !! p = Some P1 /\
        ParameterPy.getValue (S k) p s = Ok (Some v, s2) /\
        s2 = set_par p (with_value (Some v) P1) s1 /\
        (_value <$> pars s2 !! p) = Some (Some v))
  /\ (constraint P = None ->
      ParameterPy.getValue (S k) p s = Ok (_value P, s))
  /\ (forall q Q i vq n,
      p <> q -> pars s !! q = Some Q -> constraint Q = None ->
      _value Q = Some vq ->
      exists s1 s2 s3 w,
        ParameterPy.constrain (S k) p (twice i q) s = Ok s1 /\
        ParameterPy.setValue q 10 s1 = Ok s2 /\
        ParameterPy.getValue (S (S n)) p s2 = Ok (Some w, s3) /\
        (w == 20)%Q).
Proof.
  intros HP. split; [| split].
  - intros eq v s1 Hc Hcall.
    destruct (getValue_constrained k p s P eq v s1 HP Hc Hcall) as (P1 & HP1 & _ & Hg).
    exists P1, (set_par p (with_value (Some v) P1) s1).
    split; [exact HP1 |]. split; [exact Hg |]. split; [reflexivity |].
    rewrite pars_set_par_eq. reflexivity.
  - intros Hc. apply getValue_unconstrained; assumption.
  - intros q Q i vq n Hne HQ HcQ HvQ.
    rewrite (constrain_twice k p q i s P Q vq Hne HP HQ HcQ HvQ).
    set (PA := with_constraint (Some (twice i q)) P).
    set (s1 := notify p _).
    assert (Hp1 : pars s1 !! p = Some (with_value (Some (2 * vq)%Q) PA)).
    { unfold s1. cbn. apply lookup_insert_eq. }
    assert (Hq1 : pars s1 !! q = Some Q).
    { unfold s1. cbn. rewrite !lookup_insert_ne by exact Hne. exact HQ. }
    destruct (Argument_setValue_spec q 10 s1 Q Hq1) as (w & Hw & [[H1 H2] | [H1 H2]]).
    + (* q already holds 10 *)
      assert (w = vq) by congruence. subst w.
      destruct (getValue_constrained (S n) p s1 _ (twice i q) (2 * vq)%Q s1 Hp1 eq_refl)
        as (P1 & _ & _ & Hg).
      { apply (call_twice n i q s1 Q vq Hq1 HcQ HvQ). }
      exists s1, s1. eexists. exists (2 * vq)%Q.
      split; [reflexivity |]. split; [exact H1 |]. split; [exact Hg |].
      rewrite Hw. reflexivity.
    + set (s2 := notify q _) in H1.
      assert (Hp2 : pars s2 !! p = Some (with_value (Some (2 * vq)%Q) PA)).
      { unfold s2. cbn. rewrite lookup_insert_ne by (intros E; apply Hne; symmetry; exact E).
        exact Hp1. }
      assert (Hq2 : pars s2 !! q = Some (with_value (Some 10%Q) Q)).
      { unfold s2. cbn. apply lookup_insert_eq. }
      destruct (getValue_constrained (S n) p s2 _ (twice i q) (2 * 10)%Q s2 Hp2 eq_refl)
        as (P1 & _ & _ & Hg).
      { apply (call_twice n i q s2 _ 10%Q Hq2); [exact HcQ | reflexivity]. }
      exists s1, s2. eexists. exists (2 * 10)%Q.
      split; [reflexivity |]. split; [exact H1 |]. split; [exact Hg |].
      reflexivity.
Qed.

Lemma C4_getValue_follows_constraint_witness :
  (forall eq v s1,
      constraint (free_par "p" 1) = Some eq ->
      ParameterPy.call 1 eq two_pars = Ok (v, s1) ->
      exists P1 s2,
        pars s1 !! 0%nat = Some P1 /\
        ParameterPy.getValue 2 0%nat two_pars = Ok (Some v, s2) /\
        s2 = set_par 0%nat (with_value (Some v) P1) s1 /\
        (_value <$> pars s2 !! 0%nat) = Some (Some v))
  /\ (constraint (free_par "p" 1) = None ->
      ParameterPy.getValue 2 0%nat two_pars = Ok (_value (free_par "p" 1), two_pars))
  /\ (forall q Q i vq n,
      0%nat <> q -> pars two_pars !! q = Some Q -> constraint Q = None ->
      _value Q = Some vq ->
      exists s1 s2 s3 w,
        ParameterPy.constrain 2 0%nat (twice i q) two_pars = Ok s1 /\
        ParameterPy.setValue q 10 s1 = Ok s2 /\
        ParameterPy.getValue (S (S n)) 0%nat s2 = Ok (Some w, s3) /\
        (w == 20)%Q).
Proof.
  apply (C4_getValue_follows_constraint 1 0%nat two_pars (free_par "p" 1)).
  reflexivity.
Defined.

(** The same run, computed: constrain p to 2*q, set q to 10, read p. *)
Example getValue_after_setValue :
  exists s1 s2 s3,
    ParameterPy.constrain 3 0%nat (twice 7 1) two_pars = Ok s1 /\
    ParameterPy.setValue 1%nat 10 s1 = Ok s2 /\
    ParameterPy.getValue 3 0%nat s2 = Ok (Some (2 * 10)%Q, s3).
Proof.
  eexists _, _, _. split; [vm_compute; reflexivity |].
  split; [vm_compute; reflexivity |]. vm_compute. reflexivity.
Qed.

Lemma setValue_then_getValue p x s P :
  pars s !! p = Some P -> constraint P = None ->
  exists s3 w,
    ParameterPy.setValue p x s = Ok s3 /\ (w == x)%Q /\
    forall n, ParameterPy.getValue (S n) p s3 = Ok (Some w, s3).
Proof.
  intros HP Hc. unfold ParameterPy.setValue.
  destruct (Argument_setValue_spec p x s P HP) as (w & Hw & [[H1 H2] | [H1 H2]]).
  - exists s, w. split; [exact H1 |]. split; [exact Hw |].
    intros n. rewrite (getValue_unconstrained n p s P HP Hc), H2. reflexivity.
  - subst w. eexists _, x. split; [exact H1 |]. split; [reflexivity |].
    intros n.
    rewrite (getValue_unconstrained n p _ (with_value (Some x) P));
      [reflexivity | cbn; apply lookup_insert_eq | exact Hc].
Qed.

(** C5: for a constrained Parameter p whose constraint evaluates to v,
    unconstrain stores v as p's plain value, removes p's observer from the
    equation and clears the constraint (Constraint.unconstrain clears the
    constrained flag); afterwards p.getValue() returns v, and p.setValue(5)
    succeeds and p.getValue() then returns 5. *)
Theorem C5_unconstrain_keeps_last_value (k : nat) (p : ident) (s : store)
    (P : Param) (eq : Equation) (v : Q) (s1 : store) :
  pars s !! p = Some P -> constraint P = Some eq ->
  ParameterPy.call k eq s = Ok (v, s1) ->
  (exists s2 P2,
    ParameterPy.unconstrain k p s = Ok s2 /\
    pars s2 !! p = Some P2 /\ _value P2 = Some v /\ constraint P2 = None /\
    ((eq_id eq, p) ∉ observers s2) /\
    (forall n, ParameterPy.getValue (S n) p s2 = Ok (Some v, s2)) /\
    exists s3 w,
      ParameterPy.setValue p 5 s2 = Ok s3 /\ (w == 5)%Q /\
      forall n, ParameterPy.getValue (S n) p s3 = Ok (Some w, s3))
  /\ (forall c, ConstraintPy.par c = Some p ->
      exists s',
        ConstraintPy.unconstrain c s = Ok (ConstraintPy.init, s') /\
        (constrained <$> pars s' !! p) = Some false).
Proof.
  intros HP Hc Hcall. split.
  - destruct (frame_lookup _ _ _ _ (call_frame _ _ _ _ _ Hcall) HP)
      as (P1 & HP1 & HP1eq & _).
    assert (Hc1 : constraint P1 = Some eq).
    { rewrite HP1eq. exact Hc. }
    set (P2 := with_constraint None (with_value (Some v) P1)).
    set (s2 := notify p
                 (set_par p P2
                    (removeObserver (eq_id eq) p
                       (set_par p (with_value (Some v) P1) s1)))).
    assert (Hun : ParameterPy.unconstrain k p s = Ok s2).
    { unfold ParameterPy.unconstrain. rewrite (get_Some _ _ _ HP). cbn.
      rewrite Hc, Hcall. cbn. rewrite (update_par_Some _ _ _ _ HP1). cbn.
      rewrite (get_Some _ _ _ (pars_set_par_eq _ _ _)). cbn. rewrite Hc1.
      erewrite update_par_Some; [reflexivity |].
      cbn. apply lookup_insert_eq. }
    assert (HP2 : pars s2 !! p = Some P2).
    { unfold s2. cbn. apply lookup_insert_eq. }
    exists s2, P2. split; [exact Hun |]. split; [exact HP2 |].
    split; [reflexivity |]. split; [reflexivity |]. split.
    { unfold s2. cbn. intros Hin. apply elem_of_difference in Hin as [_ Hin].
      apply Hin, elem_of_singleton. reflexivity. }
    split.
    { intros n. rewrite (getValue_unconstrained n p s2 P2 HP2 eq_refl). reflexivity. }
    apply (setValue_then_getValue p 5 s2 P2 HP2 eq_refl).
  - intros c Hpar. unfold ConstraintPy.unconstrain. rewrite Hpar.
    rewrite (update_par_Some _ _ _ _ HP). cbn. eexists. split; [reflexivity |].
    cbn. rewrite lookup_insert_eq. reflexivity.
Qed.

Lemma C5_unconstrain_keeps_last_value_witness :
  (exists s2 P2,
    ParameterPy.unconstrain 1 0%nat p_constrained = Ok s2 /\
    pars s2 !! 0%nat = Some P2 /\ _value P2 = Some (2 * 2)%Q /\
    constraint P2 = None /\
    ((eq_id (twice 7 1), 0%nat) ∉ observers s2) /\
    (forall n, ParameterPy.getValue (S n) 0%nat s2 = Ok (Some (2 * 2)%Q, s2)) /\
    exists s3 w,
      ParameterPy.setValue 0%nat 5 s2 = Ok s3 /\ (w == 5)%Q /\
      forall n, ParameterPy.getValue (S n) 0%nat s3 = Ok (Some w, s3))
  /\ (forall c, ConstraintPy.par c = Some 0%nat ->
      exists s',
        ConstraintPy.unconstrain c p_constrained = Ok (ConstraintPy.init, s') /\
        (constrained <$> pars s' !! 0%nat) = Some false).
Proof.
  apply (C5_unconstrain_keeps_last_value 1 0%nat p_constrained
           (with_constraint (Some (twice 7 1)) (free_par "p" 1))
           (twice 7 1) (2 * 2)%Q p_constrained); reflexivity.
Defined.

(** ** literals/Generator.py: identify *)

(** C6 (as stated, refuted): a visitor shown a Generator whose generate would
    refresh the literal still sees the literal absent, whatever the clicker:
    identify has not run the update policy. *)
Lemma C6_identify_skips_generate :
  GeneratorPy.identify GeneratorPy.Refreshing (GeneratorPy.init "g")
    GeneratorPy.literal_seen false
  = Ok (GeneratorPy.init "g", false)
  /\ forall clk,
       GeneratorPy.identify GeneratorPy.Refreshing (GeneratorPy.init "g")
         GeneratorPy.literal_seen false
       <> GeneratorPy.identify_after_generate GeneratorPy.Refreshing
            (GeneratorPy.init "g") GeneratorPy.literal_seen false clk.
Proof.
  split; [reflexivity |]. intros clk H. discriminate H.
Qed.

(** C6 (amended): for every visitor v, identify on a Generator does nothing
    but dispatch v.onGenerator(self) on the generator as it is; it does not
    call generate, and the generate of the base class changes nothing. *)
Theorem C6_identify_only_dispatches (V : Type) (cls : GeneratorPy.GeneratorClass)
    (self : GeneratorPy.Generator) (visitor : GeneratorPy.Visitor V) (vs : V) :
  GeneratorPy.identify cls self visitor vs
  = GeneratorPy.onGenerator visitor cls self vs
  /\ forall clk, GeneratorPy.generate GeneratorPy.Generator_base self clk = self.
Proof. split; [reflexivity | intros clk; reflexivity]. Qed.

(** ** parameter.py: ParameterWrapper *)

(** C7 (as stated, refuted): with both getter and setter supplied the
    construction still fails with ValueError when the name is not a valid
    identifier. *)
Lemma C7_invalid_name_raises :
  raises_ValueError
    (Wrapper.init cell_getattr cell_setattr 0 "2theta" 1%Q
       (Some cell_getter) (Some cell_setter) None)
  /\ ~ Wrapper.accessor_misuse (Some cell_getter) (Some cell_setter) None.
Proof.
  split.
  - eexists. vm_compute. reflexivity.
  - intros [[H _] | [[_ H] | [H _]]]; discriminate H.
Qed.

Lemma accessor_check {Obj} (g : option (Wrapper.Getter (Obj := Obj)))
    (st : option Wrapper.Setter) (a : option string) :
  (Wrapper.is_None g && Wrapper.is_None st && Wrapper.is_None a
   || (Wrapper.count_None g st =? 1)%nat) = true
  <-> Wrapper.accessor_misuse g st a.
Proof.
  unfold Wrapper.accessor_misuse.
  destruct g as [g |], st as [st |], a as [a |]; cbn; split; intros H.
  all: try discriminate H; try reflexivity.
  all: try (destruct H as [[H1 H2] | [[H1 H2] | [H1 [H2 H3]]]]; congruence).
  all: try (left; split; [reflexivity | discriminate]).
  all: try (right; left; split; [discriminate | reflexivity]).
  all: right; right; repeat split.
Qed.

Lemma classic_misuse {Obj} (g : option (Wrapper.Getter (Obj := Obj)))
    (st : option Wrapper.Setter) (a : option string) :
  Wrapper.accessor_misuse g st a \/ ~ Wrapper.accessor_misuse g st a.
Proof.
  destruct (Wrapper.is_None g && Wrapper.is_None st && Wrapper.is_None a
            || (Wrapper.count_None g st =? 1)%nat) eqn:E.
  - left. apply accessor_check. exact E.
  - right. intros H. apply accessor_check in H. congruence.
Qed.

(** C7 (amended): when the getter that __init__ installs returns a value on
    the wrapped object, constructing a ParameterWrapper fails with ValueError
    if and only if exactly one of getter and setter is supplied, or getter,
    setter and attribute key are all absent, or the name is not a valid
    identifier; in every other case (both accessors and no key, a key alone,
    a key with both accessors) it succeeds and the wrapper holds the value
    read through the getter. *)
Theorem C7_wrapper_init {Obj : Type} (getattr : Obj -> string -> result Q)
    (setattr : Obj -> string -> Q -> result Obj) (id : ident) (nm : string)
    (o : Obj) (g : option Wrapper.Getter) (st : option Wrapper.Setter)
    (a : option string) (v : Q) :
  (forall read, Wrapper.effective_getter getattr g a = Some read -> read o = Ok v) ->
  (raises_ValueError (Wrapper.init getattr setattr id nm o g st a)
     <-> Wrapper.accessor_misuse g st a \/ isIdentifier nm = false)
  /\ (~ Wrapper.accessor_misuse g st a -> isIdentifier nm = true ->
      Wrapper.init getattr setattr id nm o g st a
      = Ok (Wrapper.mkWrapper id
              (mkParam nm (Some v) false false None (NegInf, PosInf))
              (Wrapper.effective_getter getattr g a)
              (Wrapper.effective_setter setattr st a) a)).
Proof.
  intros Hread.
  pose proof (accessor_check g st a) as Hchk.
  assert (Hgood : ~ Wrapper.accessor_misuse g st a ->
    Wrapper.init getattr setattr id nm o g st a
    = (P ← Parameter_init nm (Some v) false;
       Ok (Wrapper.mkWrapper id P (Wrapper.effective_getter getattr g a)
             (Wrapper.effective_setter setattr st a) a))).
  { intros Hm. unfold Wrapper.init.
    destruct (Wrapper.is_None g && Wrapper.is_None st && Wrapper.is_None a) eqn:E1.
    { exfalso. apply Hm, Hchk. reflexivity. }
    destruct (Wrapper.count_None g st =? 1)%nat eqn:E2.
    { exfalso. apply Hm, Hchk. reflexivity. }
    unfold Wrapper.getValue. cbn [Wrapper.getter].
    destruct (Wrapper.effective_getter getattr g a) as [read |] eqn:Eg.
    - rewrite (Hread read eq_refl). reflexivity.
    - exfalso. apply Hm. unfold Wrapper.accessor_misuse.
      destruct g, a; cbn in Eg; try discriminate.
      destruct st; [left; split; [reflexivity | discriminate] |].
      right; right; repeat split. }
  split; [split |].
  - intros [msg Hmsg].
    destruct (isIdentifier nm) eqn:Hid; [| right; reflexivity].
    left. apply Hchk. unfold Wrapper.init in Hmsg.
    destruct (Wrapper.is_None g && Wrapper.is_None st && Wrapper.is_None a) eqn:E1;
      [reflexivity |].
    destruct (Wrapper.count_None g st =? 1)%nat eqn:E2; [reflexivity |].
    exfalso.
    assert (Hm : ~ Wrapper.accessor_misuse g st a).
    { intros Hm. apply Hchk in Hm. discriminate Hm. }
    specialize (Hgood Hm). unfold Wrapper.init in Hgood. rewrite E1, E2 in Hgood.
    rewrite Hgood in Hmsg. unfold Parameter_init, validateName in Hmsg.
    rewrite Hid in Hmsg. discriminate Hmsg.
  - intros [Hm | Hid].
    + apply Hchk in Hm. unfold Wrapper.init.
      destruct (Wrapper.is_None g && Wrapper.is_None st && Wrapper.is_None a);
        [eexists; reflexivity |].
      cbn in Hm. rewrite Hm. eexists; reflexivity.
    + destruct (classic_misuse g st a) as [Hm | Hm].
      * apply Hchk in Hm. unfold Wrapper.init.
        destruct (Wrapper.is_None g && Wrapper.is_None st && Wrapper.is_None a);
          [eexists; reflexivity |].
        cbn in Hm. rewrite Hm. eexists; reflexivity.
      * rewrite (Hgood Hm). unfold Parameter_init, validateName. rewrite Hid.
        eexists; reflexivity.
  - intros Hm Hid. rewrite (Hgood Hm). unfold Parameter_init, validateName.
    rewrite Hid. reflexivity.
Qed.

Lemma C7_wrapper_init_witness :
  (raises_ValueError
     (Wrapper.init cell_getattr cell_setattr 0 "scale" 1%Q
        (Some cell_getter) (Some cell_setter) None)
     <-> Wrapper.accessor_misuse (Some cell_getter) (Some cell_setter) None
         \/ isIdentifier "scale" = false)
  /\ (~ Wrapper.accessor_misuse (Some cell_getter) (Some cell_setter) None ->
      isIdentifier "scale" = true ->
      Wrapper.init cell_getattr cell_setattr 0 "scale" 1%Q
        (Some cell_getter) (Some cell_setter) None
      = Ok (Wrapper.mkWrapper 0
              (mkParam "scale" (Some 1%Q) false false None (NegInf, PosInf))
              (Wrapper.effective_getter cell_getattr (Some cell_getter) None)
              (Wrapper.effective_setter cell_setattr (Some cell_setter) None) None)).
Proof.
  apply (C7_wrapper_init cell_getattr cell_setattr 0 "scale" 1%Q
           (Some cell_getter) (Some cell_setter) None 1%Q).
  intros read H. injection H as <-. reflexivity.
Defined.

(** The three ways of supplying accessors that __init__ accepts, and the
    ways it rejects, on the number cell. *)
Example wrapper_init_cases :
  is_Ok (Wrapper.init cell_getattr cell_setattr 0 "a" 1%Q
           (Some cell_getter) (Some cell_setter) None)
  /\ is_Ok (Wrapper.init cell_getattr cell_setattr 0 "a" 1%Q None None (Some "x"))
  /\ is_Ok (Wrapper.init cell_getattr cell_setattr 0 "a" 1%Q
              (Some cell_getter) (Some cell_setter) (Some "x"))
  /\ raises_ValueError (Wrapper.init cell_getattr cell_setattr 0 "a" 1%Q None None None)
  /\ raises_ValueError (Wrapper.init cell_getattr cell_setattr 0 "a" 1%Q
                          (Some cell_getter) None None)
  /\ raises_ValueError (Wrapper.init cell_getattr cell_setattr 0 "a" 1%Q
                          None (Some cell_setter) (Some "x")).
Proof. repeat split; eexists; vm_compute; reflexivity. Qed.

(** C9: when x equals the value read through the getter, w.setValue(x)
    returns with the wrapped object and the store (observers and
    notifications) exactly as they were, whatever the setter would do; when
    x differs, the setter is applied to the object and then notify is
    called. *)
Theorem C9_wrapper_setValue_skips_equal {Obj : Type}
    (w : @Wrapper.ParameterWrapper Obj) (x current : Q) (o : Obj) (s : store) :
  Wrapper.getValue w o = Ok current ->
  ((x == current)%Q -> Wrapper.setValue w x (o, s) = Ok (o, s))
  /\ (~ (x == current)%Q ->
      forall st, Wrapper.setter w = Some st ->
        Wrapper.setValue w x (o, s)
        = (o' ← st o x; Ok (o', notify (Wrapper.self w) s))).
Proof.
  intros Hget. unfold Wrapper.setValue. rewrite Hget. cbn. split.
  - intros Heq. apply Qeq_bool_iff in Heq. rewrite Heq. reflexivity.
  - intros Hne st Hst.
    destruct (Qeq_bool x current) eqn:E.
    + apply Qeq_bool_iff in E. contradiction.
    + cbn. rewrite Hst. reflexivity.
Qed.

Lemma C9_wrapper_setValue_skips_equal_witness :
  ((2 # 2 == 1)%Q -> Wrapper.setValue cell_wrapper (2 # 2)%Q (1%Q, two_pars) = Ok (1%Q, two_pars))
  /\ (~ (2 # 2 == 1)%Q ->
      forall st, Wrapper.setter cell_wrapper = Some st ->
        Wrapper.setValue cell_wrapper (2 # 2)%Q (1%Q, two_pars)
        = (o' ← st 1%Q (2 # 2)%Q; Ok (o', notify (Wrapper.self cell_wrapper) two_pars))).
Proof.
  apply (C9_wrapper_setValue_skips_equal cell_wrapper (2 # 2)%Q 1%Q 1%Q two_pars).
  reflexivity.
Defined.

(** Writing a different value goes through the setter and notifies once. *)
Example wrapper_setValue_changes :
  Wrapper.setValue cell_wrapper 3%Q (1%Q, two_pars)
  = Ok (3%Q, notify 0 two_pars)
  /\ notified (notify 0 two_pars) = [0%nat].
Proof. split; reflexivity. Qed.

(** ** util/visitors.py: FilterGetter and ParameterGetter *)

Lemma vnode_ind' (P : vnode -> Prop)
  (HPar : forall i nm v c,
      match c with Some e => P e | None => True end -> P (Par i nm v c))
  (HOp : forall i nm u args kw,
      Forall P args -> Forall (fun ka => P (snd ka)) kw -> P (Op i nm u args kw))
  (HContainer : forall i nm v ads, Forall P ads -> P (Container i nm v ads)) :
  forall n, P n.
Proof.
  fix IH 1. intros [i nm v c | i nm u args kw | i nm v ads].
  - apply HPar. destruct c as [e |]; [apply IH | exact I].
  - apply HOp.
    + induction args as [| a args IHargs]; constructor; [apply IH | exact IHargs].
    + induction kw as [| [k a] kw IHkw]; constructor; [apply IH | exact IHkw].
  - apply HContainer.
    induction ads as [| a ads IHads]; constructor; [apply IH | exact IHads].
Qed.

Section Folds.
(** A visit of each element of a list in turn, threading the set. *)
Context {B : Type}.
Variable visit : B -> gset ident -> gset ident.

Lemma fold_visit_mono (l : list B) :
  Forall (fun b => forall vals, vals ⊆ visit b vals) l ->
  forall vals, vals ⊆ fold_left (fun vals b => visit b vals) l vals.
Proof.
  induction 1 as [| b l Hb _ IHl]; intros vals; cbn; [reflexivity |].
  etrans; [apply Hb | apply IHl].
Qed.

Lemma fold_visit_elem (l : list B) (b : B) (x : ident) :
  b ∈ l ->
  Forall (fun b => forall vals, vals ⊆ visit b vals) l ->
  (forall vals, x ∈ visit b vals) ->
  forall vals, x ∈ fold_left (fun vals b => visit b vals) l vals.
Proof.
  intros Hin Hmono Hx. induction Hmono as [| c l Hc Hl IHl]; intros vals.
  - inversion Hin.
  - cbn. apply elem_of_cons in Hin as [<- | Hin].
    + apply (fold_visit_mono l Hl). apply Hx.
    + apply IHl. exact Hin.
Qed.

Lemma fold_visit_sound (l : list B) (Q : B -> ident -> Prop) :
  Forall (fun b => forall vals x, x ∈ visit b vals -> x ∈ vals \/ Q b x) l ->
  forall vals x, x ∈ fold_left (fun vals b => visit b vals) l vals ->
                 x ∈ vals \/ exists b, b ∈ l /\ Q b x.
Proof.
  induction 1 as [| b l Hb _ IHl]; intros vals x Hx; cbn in Hx; [left; exact Hx |].
  apply IHl in Hx as [Hx | (c & Hc & HQ)].
  - apply Hb in Hx as [Hx | HQ]; [left; exact Hx |].
    right. exists b. split; [apply list_elem_of_here | exact HQ].
  - right. exists c. split; [apply list_elem_of_further; exact Hc | exact HQ].
Qed.

End Folds.

Lemma add_if_mono filt n vals : vals ⊆ add_if filt n vals.
Proof. unfold add_if. destruct (filt n); set_solver. Qed.

Lemma add_if_elem filt n vals : filt n = true -> node_id n ∈ add_if filt n vals.
Proof. unfold add_if. intros ->. set_solver. Qed.

Lemma add_if_sound filt n vals x :
  x ∈ add_if filt n vals -> x ∈ vals \/ (filt n = true /\ x = node_id n).
Proof.
  unfold add_if. destruct (filt n); [| tauto].
  intros H. apply elem_of_union in H as [H | H]; [tauto |].
  apply elem_of_singleton in H. tauto.
Qed.

Lemma FilterGetter_mono filt n : forall vals, vals ⊆ FilterGetter filt n vals.
Proof.
  induction n as [i nm v c IH | i nm u args kw IHa IHk | i nm v ads IH]
    using vnode_ind'; intros vals; cbn [FilterGetter].
  - destruct c as [e |]; [| apply add_if_mono].
    etrans; [apply add_if_mono | apply IH].
  - etrans; [apply add_if_mono |].
    etrans; [apply (fold_visit_mono (FilterGetter filt) args IHa) |].
    apply (fold_visit_mono (fun ka => FilterGetter filt (snd ka)) kw IHk).
  - etrans; [apply add_if_mono |].
    apply (fold_visit_mono (FilterGetter filt) ads IH).
Qed.

Lemma Forall_FilterGetter_mono filt (l : list vnode) :
  Forall (fun b => forall vals, vals ⊆ FilterGetter filt b vals) l.
Proof. apply Forall_forall. intros b _. apply FilterGetter_mono. Qed.

Lemma Forall_FilterGetter_mono_kw filt (l : list (string * vnode)) :
  Forall (fun ka => forall vals, vals ⊆ FilterGetter filt (snd ka) vals) l.
Proof. apply Forall_forall. intros b _. apply FilterGetter_mono. Qed.

(** Every node the traversal can reach and the filter accepts ends up in
    [vals]. *)
Lemma FilterGetter_complete filt n q :
  reachable n q -> filt q = true ->
  forall vals, node_id q ∈ FilterGetter filt n vals.
Proof.
  intros Hreach Hq. revert q Hreach Hq.
  induction n as [i nm v c IH | i nm u args kw IHa IHk | i nm v ads IH]
    using vnode_ind'; intros q Hreach Hq vals.
  - apply rtc_inv in Hreach as [<- | (m & Hstep & Hrest)].
    + cbn [FilterGetter]. destruct c as [e |].
      * apply FilterGetter_mono. apply add_if_elem. exact Hq.
      * apply add_if_elem. exact Hq.
    + inversion Hstep; subst. cbn [FilterGetter].
      apply (IH q Hrest Hq).
  - apply rtc_inv in Hreach as [<- | (m & Hstep & Hrest)].
    + cbn [FilterGetter].
      apply (fold_visit_mono (fun ka => FilterGetter filt (snd ka)) kw
               (Forall_FilterGetter_mono_kw filt kw)).
      apply (fold_visit_mono (FilterGetter filt) args
               (Forall_FilterGetter_mono filt args)).
      apply add_if_elem. exact Hq.
    + cbn [FilterGetter]. inversion Hstep; subst.
      * apply (fold_visit_mono (fun ka => FilterGetter filt (snd ka)) kw
                 (Forall_FilterGetter_mono_kw filt kw)).
        apply (fold_visit_elem (FilterGetter filt) args m);
          [assumption | apply Forall_FilterGetter_mono |].
        intros vals'. rewrite Forall_forall in IHa. apply IHa; assumption.
      * apply (fold_visit_elem (fun ka => FilterGetter filt (snd ka)) kw ka);
          [assumption | apply Forall_FilterGetter_mono_kw |].
        intros vals'. rewrite Forall_forall in IHk. apply IHk; assumption.
  - apply rtc_inv in Hreach as [<- | (m & Hstep & Hrest)].
    + cbn [FilterGetter].
      apply (fold_visit_mono (FilterGetter filt) ads
               (Forall_FilterGetter_mono filt ads)).
      apply add_if_elem. exact Hq.
    + cbn [FilterGetter]. inversion Hstep; subst.
      apply (fold_visit_elem (FilterGetter filt) ads m);
        [assumption | apply Forall_FilterGetter_mono |].
      intros vals'. rewrite Forall_forall in IH. apply IH; assumption.
Qed.

(** Nothing else does: what is in [vals] afterwards was there before or is a
    reachable node the filter accepts. *)
Lemma FilterGetter_sound filt n :
  forall vals x, x ∈ FilterGetter filt n vals ->
    x ∈ vals \/ exists q, reachable n q /\ filt q = true /\ node_id q = x.
Proof.
  induction n as [i nm v c IH | i nm u args kw IHa IHk | i nm v ads IH]
    using vnode_ind'; intros vals x Hx; cbn [FilterGetter] in Hx.
  - destruct c as [e |].
    + apply IH in Hx as [Hx | (q & Hr & Hf & Hid)].
      * apply add_if_sound in Hx as [Hx | [Hf ->]]; [left; exact Hx |].
        right. exists (Par i nm v (Some e)). split; [apply rtc_refl | tauto].
      * right. exists q. split; [| tauto].
        eapply rtc_l; [apply child_constraint | exact Hr].
    + apply add_if_sound in Hx as [Hx | [Hf ->]]; [left; exact Hx |].
      right. eexists. split; [apply rtc_refl | tauto].
  - apply (fold_visit_sound (fun ka => FilterGetter filt (snd ka)) kw
             (fun ka x => exists q, reachable (snd ka) q /\ filt q = true /\ node_id q = x))
      in Hx; [| exact IHk].
    destruct Hx as [Hx | (ka & Hka & q & Hr & Hf & Hid)].
    + apply (fold_visit_sound (FilterGetter filt) args
               (fun a x => exists q, reachable a q /\ filt q = true /\ node_id q = x))
        in Hx; [| exact IHa].
      destruct Hx as [Hx | (a & Ha & q & Hr & Hf & Hid)].
      * apply add_if_sound in Hx as [Hx | [Hf ->]]; [left; exact Hx |].
        right. eexists. split; [apply rtc_refl | tauto].
      * right. exists q. split; [| tauto].
        eapply rtc_l; [apply child_arg; exact Ha | exact Hr].
    + right. exists q. split; [| tauto].
      eapply rtc_l; [apply child_kw; exact Hka | exact Hr].
  - apply (fold_visit_sound (FilterGetter filt) ads
             (fun a x => exists q, reachable a q /\ filt q = true /\ node_id q = x))
      in Hx; [| exact IH].
    destruct Hx as [Hx | (a & Ha & q & Hr & Hf & Hid)].
    + apply add_if_sound in Hx as [Hx | [Hf ->]]; [left; exact Hx |].
      right. eexists. split; [apply rtc_refl | tauto].
    + right. exists q. split; [| tauto].
      eapply rtc_l; [apply child_adapter; exact Ha | exact Hr].
Qed.

Lemma fold_visit_ext {B} (f g : B -> gset ident -> gset ident) (l : list B) :
  Forall (fun b => forall vals, f b vals = g b vals) l ->
  forall vals, fold_left (fun vals b => f b vals) l vals
               = fold_left (fun vals b => g b vals) l vals.
Proof.
  induction 1 as [| b l Hb _ IHl]; intros vals; cbn; [reflexivity |].
  rewrite Hb. apply IHl.
Qed.

(** ParameterGetter is FilterGetter restricted to parameters. *)
Lemma ParameterGetter_visit_as_FilterGetter filt n :
  forall vals,
    ParameterGetter_visit filt n vals
    = FilterGetter (fun m => is_par m && filt m) n vals.
Proof.
  induction n as [i nm v c IH | i nm u args kw IHa IHk | i nm v ads IH]
    using vnode_ind'; intros vals; cbn [ParameterGetter_visit FilterGetter].
  - unfold add_if. cbn [is_par andb].
    destruct c as [e |]; [apply IH | reflexivity].
  - unfold add_if. cbn [is_par andb].
    rewrite (fold_visit_ext _ _ args IHa).
    apply (fold_visit_ext (fun ka => ParameterGetter_visit filt (snd ka))
             (fun ka => FilterGetter (fun m => is_par m && filt m) (snd ka)) kw IHk).
  - unfold add_if. cbn [is_par andb].
    apply (fold_visit_ext _ _ ads IH).
Qed.

Lemma ParameterGetter_complete filt n q :
  reachable n q -> is_par q = true -> default _identity filt q = true ->
  node_id q ∈ ParameterGetter filt n.
Proof.
  intros Hr Hp Hf. unfold ParameterGetter.
  rewrite ParameterGetter_visit_as_FilterGetter.
  apply FilterGetter_complete; [exact Hr |]. rewrite Hp, Hf. reflexivity.
Qed.

Lemma ParameterGetter_sound filt n x :
  x ∈ ParameterGetter filt n ->
  exists q, reachable n q /\ is_par q = true
            /\ default _identity filt q = true /\ node_id q = x.
Proof.
  unfold ParameterGetter. rewrite ParameterGetter_visit_as_FilterGetter.
  intros H. apply FilterGetter_sound in H as [H | (q & Hr & Hf & Hid)].
  - apply not_elem_of_empty in H. contradiction.
  - apply andb_true_iff in Hf as [Hp Hf]. exists q. tauto.
Qed.

Lemma par_q_reachable : reachable p_constrained_to_q par_q.
Proof.
  eapply rtc_l; [apply child_constraint |].
  eapply rtc_l; [apply child_arg | apply rtc_refl].
  apply list_elem_of_further, list_elem_of_here.
Qed.

(** C10 (as stated, refuted): with a filter that accepts nothing, q, which is
    reachable through the constraint of p, is not collected by either
    getter. *)
Lemma C10_rejecting_filter_collects_nothing :
  reachable p_constrained_to_q par_q
  /\ (node_id par_q ∉ FilterGetter (fun _ => false) p_constrained_to_q ∅)
  /\ (node_id par_q ∉ ParameterGetter (Some (fun _ => false)) p_constrained_to_q).
Proof.
  split; [apply par_q_reachable |]. split; intros H.
  - apply FilterGetter_sound in H as [H | (q & _ & Hf & _)];
      [apply not_elem_of_empty in H; exact H | discriminate Hf].
  - apply ParameterGetter_sound in H as (q & _ & _ & Hf & _). discriminate Hf.
Qed.

(** C10 (amended): the ParameterGetter and FilterGetter traversals descend
    into a visited parameter's constraint, so every node reachable from the
    root through constraints, arguments, keyword arguments and adapters that
    the filter accepts is collected (by ParameterGetter when it is a
    parameter; without a filter ParameterGetter accepts every parameter), and
    each collected node appears exactly once. *)
Theorem C10_getters_follow_constraints (t q : vnode) (filt : vnode -> bool) :
  reachable t q -> filt q = true ->
  node_id q ∈ FilterGetter filt t ∅
  /\ (is_par q = true -> node_id q ∈ ParameterGetter (Some filt) t)
  /\ (is_par q = true -> node_id q ∈ ParameterGetter None t)
  /\ (forall i nm v e, reachable e q -> reachable (Par i nm v (Some e)) q)
  /\ NoDup (elements (FilterGetter filt t ∅))
  /\ NoDup (elements (ParameterGetter (Some filt) t))
  /\ NoDup (elements (ParameterGetter None t)).
Proof.
  intros Hr Hf. split; [apply FilterGetter_complete; assumption |].
  split; [intros Hp; apply ParameterGetter_complete; assumption |].
  split; [intros Hp; apply ParameterGetter_complete; [assumption .. | reflexivity] |].
  split.
  { intros i nm v e He. eapply rtc_l; [apply child_constraint | exact He]. }
  repeat split; apply NoDup_elements.
Qed.

Lemma C10_getters_follow_constraints_witness :
  node_id par_q ∈ FilterGetter is_par p_constrained_to_q ∅
  /\ (is_par par_q = true -> node_id par_q ∈ ParameterGetter (Some is_par) p_constrained_to_q)
  /\ (is_par par_q = true -> node_id par_q ∈ ParameterGetter None p_constrained_to_q)
  /\ (forall i nm v e, reachable e par_q -> reachable (Par i nm v (Some e)) par_q)
  /\ NoDup (elements (FilterGetter is_par p_constrained_to_q ∅))
  /\ NoDup (elements (ParameterGetter (Some is_par) p_constrained_to_q))
  /\ NoDup (elements (ParameterGetter None p_constrained_to_q)).
Proof.
  apply (C10_getters_follow_constraints p_constrained_to_q par_q is_par).
  - apply par_q_reachable.
  - reflexivity.
Defined.

(** A parameter shared by two arguments is collected once. *)
Example shared_parameter_collected_once :
  size (ParameterGetter None
          (Op 9 "add" u_add [par_q; p_constrained_to_q] [("k", par_q)]))
  = 3%nat.
Proof. vm_compute. reflexivity. Qed.

(** ** util/visitors.py: Printer *)

Lemma append_assoc (a b c : string) : (a +:+ b) +:+ c = a +:+ (b +:+ c).
Proof.
  induction a as [| x a IHa]; [reflexivity |].
  change (String x ((a +:+ b) +:+ c) = String x (a +:+ (b +:+ c))).
  f_equal. exact IHa.
Qed.

Lemma append_empty_r (a : string) : a +:+ "" = a.
Proof.
  induction a as [| x a IHa]; [reflexivity |].
  change (String x (a +:+ "") = String x a). f_equal. exact IHa.
Qed.

Lemma Printer_Op i nm u args kw output :
  Printer (Op i nm u args kw) output =
  ('(instr, out) ←
     match _infix u with
     | Some symbol =>
         match args with
         | a0 :: rest =>
             out ← Printer a0 "";
             match rest with
             | a1 :: _ =>
                 out ← Printer a1 (out +:+ " " +:+ symbol +:+ " ");
                 Ok (output, out)
             | [] => Raise IndexError
             end
         | [] => Raise IndexError
         end
     | None =>
         match _unary u with
         | Some symbol =>
             match args with
             | a0 :: _ => out ← Printer a0 ("" +:+ symbol); Ok (output, out)
             | [] => Raise IndexError
             end
         | None =>
             '(out, numargs) ← Printer_args args "" 0%nat;
             out ← Printer_kw numargs kw out;
             Ok (output +:+ nm, out)
         end
     end;
   Ok (close_operator instr out)).
Proof.
  cbn [Printer].
  destruct (_infix u) as [symbol |]; [reflexivity |].
  destruct (_unary u) as [symbol |]; [reflexivity |].
  assert (Hargs : forall l out n,
    (fix over_args (l : list vnode) (output : string) (numargs : nat)
       : result (string * nat) :=
       match l with
       | [] => Ok (output, numargs)
       | arg :: l' =>
           let output :=
             if negb (numargs =? 0)%nat then output +:+ ", " else output in
           output ← Printer arg output;
           over_args l' output (S numargs)
       end) l out n = Printer_args l out n).
  { induction l as [| a l IHl]; intros out n; [reflexivity |].
    cbn [Printer_args]. cbv zeta.
    destruct (Printer a _); [| reflexivity]. cbn. apply IHl. }
  rewrite Hargs.
  destruct (Printer_args args "" 0%nat) as [[out numargs] | ex]; [| reflexivity].
  cbn [mbind result_bind].
  assert (Hkw : forall l out,
    (fix over_kw (l : list (string * vnode)) (output : string) : result string :=
       match l with
       | [] => Ok output
       | ka :: l' =>
           let output :=
             if negb (numargs =? 0)%nat
             then output +:+ ", " +:+ fst ka +:+ " = "
             else output in
           output ← Printer (snd ka) output;
           over_kw l' output
       end) l out = Printer_kw numargs l out).
  { induction l as [| a l IHl]; intros out0; [reflexivity |].
    cbn [Printer_kw]. cbv zeta.
    destruct (Printer a.2 _); [| reflexivity]. cbn. apply IHl. }
  rewrite Hkw. reflexivity.
Qed.

Lemma close_operator_prefix instr output :
  close_operator instr output = instr +:+ close_operator "" output.
Proof. reflexivity. Qed.

(** A visit appends to whatever the Printer already holds. *)
Lemma Printer_appends n output :
  Printer n output = (r ← render n; Ok (output +:+ r)).
Proof.
  unfold render. destruct n as [i nm v c | i nm u args kw | i nm v ads].
  - cbn. unfold onParameter.
    destruct nm as [nm |]; [destruct (startswith "_" nm) |]; reflexivity.
  - rewrite !Printer_Op.
    destruct (_infix u) as [symbol |].
    + destruct args as [| a0 [| a1 rest]]; try reflexivity.
      * destruct (Printer a0 ""); reflexivity.
      * destruct (Printer a0 ""); [| reflexivity]. cbn.
        destruct (Printer a1 _); reflexivity.
    + destruct (_unary u) as [symbol |].
      * destruct args as [| a0 rest]; [reflexivity |].
        destruct (Printer a0 _); reflexivity.
      * destruct (Printer_args args "" 0%nat) as [[out numargs] | ex]; [| reflexivity].
        cbn. destruct (Printer_kw numargs kw out); [| reflexivity].
        cbn. unfold close_operator. rewrite append_assoc. reflexivity.
  - cbn. unfold onParameter.
    destruct nm as [nm |]; [destruct (startswith "_" nm) |]; reflexivity.
Qed.

Lemma Printer_args_spec (l : list vnode) (rs : list string) :
  Forall2 (fun a r => render a = Ok r) l rs ->
  forall output n,
    Printer_args l output n = Ok (output +:+ sep_args n rs, (n + length rs)%nat).
Proof.
  induction 1 as [| a r l rs Ha _ IHl]; intros output n.
  - cbn. rewrite append_empty_r, Nat.add_0_r. reflexivity.
  - cbn [Printer_args sep_args length]. cbv zeta.
    rewrite Printer_appends, Ha. cbn [mbind result_bind].
    rewrite IHl. f_equal. f_equal.
    + destruct (negb (n =? 0)%nat); cbn [String.append];
        rewrite ?append_assoc; reflexivity.
    + lia.
Qed.

Lemma Printer_kw_spec numargs (kw : list (string * vnode)) (rs : list string) :
  Forall2 (fun ka r => render (snd ka) = Ok r) kw rs ->
  forall output,
    Printer_kw numargs kw output
    = Ok (output +:+ sep_kw numargs (zip (fst <$> kw) rs)).
Proof.
  induction 1 as [| ka r l rs Ha _ IHl]; intros output.
  - cbn. rewrite append_empty_r. reflexivity.
  - cbn [Printer_kw sep_kw zip zip_with fmap list_fmap fst snd]. cbv zeta.
    rewrite Printer_appends, Ha. cbn [mbind result_bind].
    rewrite IHl. f_equal.
    destruct (negb (numargs =? 0)%nat); cbn [String.append];
      rewrite ?append_assoc; reflexivity.
Qed.

(** The five binary symbols render infix, with the symbol between the
    renderings of the two operands. *)
Lemma render_infix i nm u symbol a b rest kw ra rb :
  _infix u = Some symbol -> render a = Ok ra -> render b = Ok rb ->
  render (Op i nm u (a :: b :: rest) kw)
  = Ok (close_operator "" (ra +:+ " " +:+ symbol +:+ " " +:+ rb)).
Proof.
  intros Hu Ha Hb. unfold render. rewrite Printer_Op, Hu.
  fold (render a). rewrite Ha. cbn [mbind result_bind].
  rewrite Printer_appends, Hb. cbn [mbind result_bind].
  rewrite !append_assoc. reflexivity.
Qed.

(** negative renders prefix. *)
Lemma render_unary i nm a rest kw ra :
  render a = Ok ra ->
  render (Op i nm u_negative (a :: rest) kw) = Ok (close_operator "" ("-" +:+ ra)).
Proof.
  intros Ha. unfold render. rewrite Printer_Op. cbn [_infix _unary].
  rewrite Printer_appends, Ha. reflexivity.
Qed.

(** Every other operator renders its name, then its arguments: keyword
    arguments carry their key only when there is a positional argument. *)
Lemma render_call i nm u args kw ras rks :
  _infix u = None -> _unary u = None ->
  Forall2 (fun a r => render a = Ok r) args ras ->
  Forall2 (fun ka r => render (snd ka) = Ok r) kw rks ->
  render (Op i nm u args kw)
  = Ok (close_operator nm
          (sep_args 0 ras +:+ sep_kw (length ras) (zip (fst <$> kw) rks))).
Proof.
  intros Hi Hu Ha Hk. unfold render. rewrite Printer_Op, Hi, Hu.
  rewrite (Printer_args_spec args ras Ha). cbn [mbind result_bind].
  rewrite (Printer_kw_spec _ kw rks Hk). reflexivity.
Qed.

(** The parentheses are added unless the text already starts with "(" and
    ends with ")". *)
Lemma close_operator_wraps instr output :
  close_operator instr output
  = if startswith "(" output && endswith ")" output
    then instr +:+ output
    else instr +:+ "(" +:+ output +:+ ")".
Proof.
  unfold close_operator.
  destruct (startswith "(" output && endswith ")" output); reflexivity.
Qed.

(** The renderings that do follow the description: infix, prefix, a call
    with positional arguments, and the one case where no parentheses are
    added. *)
Example printer_renderings :
  render (Op 0 "add" u_add [par_x; Op 1 "power" u_power [par_y; par_z] []] [])
    = Ok "(x + (y ** z))"
  /\ render (Op 0 "negative" u_negative [par_x] []) = Ok "(-x)"
  /\ render (Op 0 "f" (u_other 9) [par_x; par_y] [("k", par_z)])
     = Ok "f(x, y, k = z)"
  /\ render (Op 0 "multiply" u_multiply
               [Op 1 "add" u_add [par_x; par_y] [];
                Op 2 "subtract" u_subtract [par_y; par_z] []] [])
     = Ok "(x + y) * (y - z)".
Proof. repeat split; vm_compute; reflexivity. Qed.

Lemma sep_kw_0 (krs : list (string * string)) :
  sep_kw 0 krs = fold_right String.append "" (snd <$> krs).
Proof.
  induction krs as [| kr krs IH]; [reflexivity |].
  cbn [sep_kw fmap list_fmap fold_right Nat.eqb negb]. rewrite IH. reflexivity.
Qed.

(** Without a positional argument the keyword loop never writes a key or a
    comma: the renderings of the keyword arguments are simply concatenated. *)
Lemma render_keywords_only i nm u kw rks :
  _infix u = None -> _unary u = None ->
  Forall2 (fun ka r => render (snd ka) = Ok r) kw rks ->
  render (Op i nm u [] kw)
  = Ok (close_operator nm (fold_right String.append "" rks)).
Proof.
  intros Hi Hu Hk.
  rewrite (render_call i nm u [] kw [] rks Hi Hu (Forall2_nil_2 _ _ _) Hk).
  cbn [sep_args length]. rewrite sep_kw_0, snd_zip.
  - reflexivity.
  - rewrite length_fmap. apply Forall2_length in Hk. lia.
Qed.

(** C8 (the code at the failing input): an Operator that is neither infix
    nor unary and has keyword arguments only is rendered without the keys
    and without separators, f(xy) for f(a=x, b=y); with a positional
    argument in front the keys are written. *)
Theorem C8_printer_keywords_without_positional :
  render (Op 0 "f" (u_other 9) [] [("a", par_x); ("b", par_y)]) = Ok "f(xy)"
  /\ render (Op 0 "f" (u_other 9) [] [("a", par_x)]) = Ok "f(x)"
  /\ render (Op 0 "f" (u_other 9) [par_z] [("a", par_x); ("b", par_y)])
     = Ok "f(z, a = x, b = y)".
Proof. repeat split; vm_compute; reflexivity. Qed.

(** * Further properties of the sources *)

(** ** restrain.py *)

Local Open Scope Q_scope.

Lemma restrain_eval e eq lb ub sig v l u s :
  eval e eq = Ok v -> eval e lb = Ok l -> eval e (default lb ub) = Ok u ->
  eval e (default (Number 1) sig) = Ok s -> ~ s == 0 ->
  exists n, Restrain.restrain eq lb ub sig = Ok n /\
            eval e n = Ok (Qmax (l - v) (Qmax 0 (v - u)) / s).
Proof.
  intros Hv Hl Hu Hs Hnz. rewrite restrain_unfold. eexists. split; [reflexivity |].
  erewrite eval_restraint_node by eassumption.
  cbn [apply_ufunc]. rewrite Qeq_bool_false by assumption. reflexivity.
Qed.



Lemma Qmax3_abs (a : Q) : Qmax (- a) (Qmax 0 a) == Qabs a.
Proof.
  destruct (Qlt_le_dec a 0) as [Hneg | Hpos].
  - rewrite (Q.max_l 0 a) by lra. rewrite Q.max_l by lra.
    rewrite Qabs_neg by lra. reflexivity.
  - rewrite (Q.max_r 0 a) by lra. rewrite Q.max_r by lra.
    rewrite Qabs_pos by lra. reflexivity.
Qed.

(** With the upper bound left out the restraint is the distance of the
    value from the single bound, divided by sigma. *)
Theorem restrain_single_bound (e : env) (eq lb : node) (sig : option node)
    (v l s : Q) :
  eval e eq = Ok v -> eval e lb = Ok l ->
  eval e (default (Number 1) sig) = Ok s -> ~ s == 0 ->
  exists n r,
    Restrain.restrain eq lb None sig = Ok n /\ eval e n = Ok r /\
    r == Qabs (v - l) / s.
Proof.
  intros Hv Hl Hs Hnz.
  destruct (restrain_eval e eq lb None sig v l l s Hv Hl Hl Hs Hnz) as (n & Hn & He).
  exists n. eexists. split; [exact Hn |]. split; [exact He |].
  assert (Hm : Qmax (l - v) (Qmax 0 (v - l)) == Qabs (v - l)).
  { rewrite <- Qmax3_abs. assert (Ho : - (v - l) == l - v) by lra.
    rewrite Ho. reflexivity. }
  rewrite Hm. reflexivity.
Qed.

Lemma restrain_single_bound_witness :
  let e : env := fun _ => Some 3 in
  exists n r,
    Restrain.restrain (Leaf 0%nat) (Number 5) None None = Ok n /\ eval e n = Ok r /\
    r == Qabs (3 - 5) / 1.
Proof.
  intros e.
  apply (restrain_single_bound e (Leaf 0%nat) (Number 5) None 3 5 1);
    try reflexivity.
  intros H; vm_compute in H; discriminate H.
Defined.



Local Close Scope Q_scope.

(** ** constraint.py *)

Lemma Constraint_constrain_inv fuel self p e s c s2 P :
  ConstraintPy.constrain fuel self p e s = Ok (c, s2) ->
  pars s !! p = Some P ->
  const P = false /\ constrained P = false /\
  c = ConstraintPy.mkConstraint (Some p) (Some e) /\
  exists v s1,
    ParameterPy.call fuel e (set_par p (with_constrained true P) s) = Ok (v, s1)
    /\ Argument_setValue p v s1 = Ok s2.
Proof.
  intros H HP. unfold ConstraintPy.constrain in H.
  rewrite (get_Some _ _ _ HP) in H. cbn in H.
  destruct (const P); [discriminate |].
  destruct (constrained P); [discriminate |].
  rewrite (update_par_Some _ _ _ _ HP) in H. cbn in H.
  unfold ConstraintPy.update in H. cbn in H.
  destruct (ParameterPy.call fuel e _) as [[v s1] | ex] eqn:Hcall; [| discriminate].
  cbn in H.
  destruct (Argument_setValue p v s1) as [s2' | ex] eqn:Hset; [| discriminate].
  cbn in H. injection H as <- <-.
  repeat split. exists v, s1. split; [reflexivity | exact Hset].
Qed.

Lemma Constraint_constrain_defined fuel self p e s c s2 :
  ConstraintPy.constrain fuel self p e s = Ok (c, s2) ->
  exists P, pars s !! p = Some P.
Proof.
  unfold ConstraintPy.constrain. destruct (get p s) as [P | ex] eqn:HP; [| discriminate].
  intros _. exists P. apply get_Ok. exact HP.
Qed.







(** Constraint.update changes the parameter, and notifies, exactly when the
    value of the equation differs from the value the parameter holds. *)
Theorem Constraint_update_only_on_change (fuel : nat) (p : ident)
    (e : Equation) (s s1 : store) (v : Q) (P1 : Param) :
  ParameterPy.call fuel e s = Ok (v, s1) ->
  pars s1 !! p = Some P1 ->
  ((exists w, _value P1 = Some w /\ (v == w)%Q) ->
     ConstraintPy.update fuel (ConstraintPy.mkConstraint (Some p) (Some e)) s = Ok s1)
  /\ (~ (exists w, _value P1 = Some w /\ (v == w)%Q) ->
     ConstraintPy.update fuel (ConstraintPy.mkConstraint (Some p) (Some e)) s
     = Ok (notify p (set_par p (with_value (Some v) P1) s1))).
Proof.
  intros Hcall HP1. unfold ConstraintPy.update. cbn [ConstraintPy.eq ConstraintPy.par].
  rewrite Hcall. cbn [mbind result_bind]. unfold Argument_setValue.
  rewrite (get_Some _ _ _ HP1). cbn [mbind result_bind]. split.
  - intros (w & Hw & Heq). unfold differs. rewrite Hw.
    apply Qeq_bool_iff in Heq. rewrite Heq. reflexivity.
  - intros Hne.
    assert (Hd : differs v (_value P1) = true).
    { unfold differs. destruct (_value P1) as [w |]; [| reflexivity].
      destruct (Qeq_bool v w) eqn:E; [| reflexivity].
      exfalso. apply Hne. exists w. split; [reflexivity |].
      apply Qeq_bool_iff. exact E. }
    rewrite Hd, (update_par_Some _ _ _ _ HP1). reflexivity.
Qed.

Lemma Constraint_update_only_on_change_witness :
  ((exists w, _value (free_par "p" 1) = Some w /\ (2 * 2 == w)%Q) ->
     ConstraintPy.update 2 (ConstraintPy.mkConstraint (Some 0%nat) (Some (twice 7 1))) two_pars
     = Ok two_pars)
  /\ (~ (exists w, _value (free_par "p" 1) = Some w /\ (2 * 2 == w)%Q) ->
     ConstraintPy.update 2 (ConstraintPy.mkConstraint (Some 0%nat) (Some (twice 7 1))) two_pars
     = Ok (notify 0%nat (set_par 0%nat (with_value (Some (2 * 2)%Q) (free_par "p" 1)) two_pars))).
Proof.
  apply (Constraint_update_only_on_change 2 0%nat (twice 7 1) two_pars two_pars
           (2 * 2)%Q (free_par "p" 1)); reflexivity.
Defined.

(** A Constraint that holds nothing, as unconstrain leaves it, can be neither
    updated nor unconstrained a second time. *)
Theorem Constraint_unconstrain_once (c : ConstraintPy.Constraint) (s : store)
    (c' : ConstraintPy.Constraint) (s' : store) :
  ConstraintPy.unconstrain c s = Ok (c', s') ->
  (forall t, ConstraintPy.unconstrain c' t = Raise AttributeError)
  /\ (forall fuel t, ConstraintPy.update fuel c' t = Raise TypeError).
Proof.
  unfold ConstraintPy.unconstrain. destruct (ConstraintPy.par c) as [p |]; [| discriminate].
  destruct (update_par p (with_constrained false) s) as [s1 |]; [| discriminate].
  cbn. intros H. injection H as <- <-. split; reflexivity.
Qed.

Lemma Constraint_unconstrain_once_witness :
  (forall t, ConstraintPy.unconstrain ConstraintPy.init t = Raise AttributeError)
  /\ (forall fuel t, ConstraintPy.update fuel ConstraintPy.init t = Raise TypeError).
Proof.
  apply (Constraint_unconstrain_once
           (ConstraintPy.mkConstraint (Some 0%nat) (Some (twice 7 1))) two_pars
           ConstraintPy.init
           (set_par 0%nat (with_constrained false (free_par "p" 1)) two_pars)).
  reflexivity.
Defined.

(** constrain touches its target only: the observers are as before, every
    other parameter keeps its name, flags and constraint, a free one keeps
    its value too, and at most one notification, of the target, is added. *)
Theorem Constraint_constrain_frame (fuel : nat)
    (self : ConstraintPy.Constraint) (p : ident) (e : Equation) (s : store)
    (c : ConstraintPy.Constraint) (s2 : store) :
  ConstraintPy.constrain fuel self p e s = Ok (c, s2) ->
  observers s2 = observers s /\
  (notified s2 = notified s \/ notified s2 = notified s ++ [p]) /\
  forall q Q, q <> p -> pars s !! q = Some Q ->
    exists Q2, pars s2 !! q = Some Q2 /\ Q2 = with_value (_value Q2) Q /\
               (constraint Q = None -> Q2 = Q).
Proof.
  intros H.
  destruct (Constraint_constrain_defined _ _ _ _ _ _ _ H) as (P & HP).
  destruct (Constraint_constrain_inv _ _ _ _ _ _ _ _ H HP)
    as (_ & _ & _ & v & s1 & Hcall & Hset).
  pose proof (call_frame _ _ _ _ _ Hcall) as Hf.
  destruct Hf as (Hobs & Hnot & Hpars).
  destruct (frame_lookup _ _ _ _ (call_frame _ _ _ _ _ Hcall) (pars_set_par_eq _ _ _))
    as (P1 & HP1 & _).
  destruct (Argument_setValue_spec p v s1 P1 HP1) as (w & _ & [[H1 _] | [H1 _]]);
    rewrite H1 in Hset; injection Hset as <-.
  - split; [exact Hobs |]. split; [left; exact Hnot |].
    intros q Q Hq HQ.
    apply (frame_lookup _ _ q Q (call_frame _ _ _ _ _ Hcall)).
    rewrite pars_set_par_ne by congruence. exact HQ.
  - split; [exact Hobs |]. split; [right; cbn; rewrite Hnot; reflexivity |].
    intros q Q Hq HQ. cbn. rewrite lookup_insert_ne by congruence.
    apply (frame_lookup _ _ q Q (call_frame _ _ _ _ _ Hcall)).
    rewrite pars_set_par_ne by congruence. exact HQ.
Qed.

Lemma Constraint_constrain_frame_witness :
  observers (notify 0%nat
         (set_par 0%nat (with_value (Some (2 * 2)%Q)
                           (with_constrained true (free_par "p" 1))) two_pars))
  = observers two_pars /\
  (notified (notify 0%nat
         (set_par 0%nat (with_value (Some (2 * 2)%Q)
                           (with_constrained true (free_par "p" 1))) two_pars))
   = notified two_pars \/
   notified (notify 0%nat
         (set_par 0%nat (with_value (Some (2 * 2)%Q)
                           (with_constrained true (free_par "p" 1))) two_pars))
   = notified two_pars ++ [0%nat]) /\
  forall q Q, q <> 0%nat -> pars two_pars !! q = Some Q ->
    exists Q2, pars (notify 0%nat
         (set_par 0%nat (with_value (Some (2 * 2)%Q)
                           (with_constrained true (free_par "p" 1))) two_pars)) !! q = Some Q2
               /\ Q2 = with_value (_value Q2) Q /\ (constraint Q = None -> Q2 = Q).
Proof.
  apply (Constraint_constrain_frame 2 ConstraintPy.init 0%nat (twice 7 1) two_pars
           (ConstraintPy.mkConstraint (Some 0%nat) (Some (twice 7 1)))).
  vm_compute. reflexivity.
Defined.

Lemma Constraint_constrain_Ok fuel self p e s P v s1 s2 :
  pars s !! p = Some P -> const P = false -> constrained P = false ->
  ParameterPy.call fuel e (set_par p (with_constrained true P) s) = Ok (v, s1) ->
  Argument_setValue p v s1 = Ok s2 ->
  ConstraintPy.constrain fuel self p e s
  = Ok (ConstraintPy.mkConstraint (Some p) (Some e), s2).
Proof.
  intros HP Hconst Hcons Hcall Hset. unfold ConstraintPy.constrain.
  rewrite (get_Some _ _ _ HP). cbn.
  rewrite Hconst, Hcons, (update_par_Some _ _ _ _ HP). cbn.
  unfold ConstraintPy.update. cbn. rewrite Hcall. cbn. rewrite Hset. reflexivity.
Qed.

(** A Constraint follows its equation only when updated.  With p
    constrained to 2*q on a free parameter q: constrain leaves p at twice
    the value of q; after q.setValue(10) p still holds that old value; after
    update p holds 20. *)
Theorem Constraint_follows_on_update (k k' : nat)
    (self : ConstraintPy.Constraint) (p q i : ident) (s : store)
    (P Q0 : Param) (vq : Q) :
  p <> q -> pars s !! p = Some P -> pars s !! q = Some Q0 ->
  const P = false -> constrained P = false ->
  constraint Q0 = None -> _value Q0 = Some vq ->
  exists s1 s2 s3 w0 w,
    ConstraintPy.constrain (S k) self p (twice i q) s
      = Ok (ConstraintPy.mkConstraint (Some p) (Some (twice i q)), s1)
    /\ (_value <$> pars s1 !! p) = Some (Some w0) /\ (w0 == 2 * vq)%Q
    /\ Argument_setValue q 10 s1 = Ok s2
    /\ (_value <$> pars s2 !! p) = Some (Some w0)
    /\ ConstraintPy.update (S k')
         (ConstraintPy.mkConstraint (Some p) (Some (twice i q))) s2 = Ok s3
    /\ (_value <$> pars s3 !! p) = Some (Some w) /\ (w == 20)%Q.
Proof.
  intros Hne HP HQ Hconst Hcons HcQ HvQ.
  set (s0 := set_par p (with_constrained true P) s).
  assert (Hq0 : pars s0 !! q = Some Q0)
    by (unfold s0; rewrite pars_set_par_ne by exact Hne; exact HQ).
  assert (Hp0 : pars s0 !! p = Some (with_constrained true P))
    by apply pars_set_par_eq.
  destruct (Argument_setValue_Ok p (2 * vq)%Q s0 _ Hp0)
    as (s1 & P1 & w0 & Hset1 & HP1 & HP1eq & Hw0).
  assert (Hq1 : pars s1 !! q = Some Q0).
  { destruct (Argument_setValue_spec p (2 * vq)%Q s0 _ Hp0)
      as (x & _ & [[H1 _] | [H1 _]]); rewrite H1 in Hset1; injection Hset1 as <-.
    - exact Hq0.
    - cbn. rewrite lookup_insert_ne by exact Hne. exact Hq0. }
  destruct (Argument_setValue_Ok q 10%Q s1 Q0 Hq1)
    as (s2 & Q2 & x & Hset2 & HQ2 & HQ2eq & Hx).
  assert (HP2 : pars s2 !! p = Some P1).
  { destruct (Argument_setValue_spec q 10%Q s1 Q0 Hq1)
      as (y & _ & [[H1 _] | [H1 _]]); rewrite H1 in Hset2; injection Hset2 as <-.
    - exact HP1.
    - cbn. rewrite lookup_insert_ne by congruence. exact HP1. }
  assert (Hcall2 : ParameterPy.call (S k') (twice i q) s2 = Ok ((2 * x)%Q, s2)).
  { apply (call_twice k' i q s2 Q2 x HQ2); rewrite HQ2eq; [exact HcQ | reflexivity]. }
  destruct (Argument_setValue_Ok p (2 * x)%Q s2 P1 HP2)
    as (s3 & P3 & w & Hset3 & HP3 & HP3eq & Hw).
  exists s1, s2, s3, w0, w.
  split.
  { apply (Constraint_constrain_Ok (S k) self p (twice i q) s P (2 * vq)%Q s0 s1
             HP Hconst Hcons); [| exact Hset1].
    apply (call_twice k i q s0 Q0 vq Hq0 HcQ HvQ). }
  split; [rewrite HP1, HP1eq; reflexivity |]. split; [exact Hw0 |].
  split; [exact Hset2 |]. split; [rewrite HP2, HP1eq; reflexivity |].
  split.
  { unfold ConstraintPy.update. cbn [ConstraintPy.eq ConstraintPy.par].
    rewrite Hcall2. cbn [mbind result_bind]. exact Hset3. }
  split; [rewrite HP3, HP3eq; reflexivity |].
  rewrite Hw, Hx. reflexivity.
Qed.

Lemma Constraint_follows_on_update_witness :
  exists s1 s2 s3 w0 w,
    ConstraintPy.constrain 2 ConstraintPy.init 0%nat (twice 7 1) two_pars
      = Ok (ConstraintPy.mkConstraint (Some 0%nat) (Some (twice 7 1)), s1)
    /\ (_value <$> pars s1 !! 0%nat) = Some (Some w0) /\ (w0 == 2 * 2)%Q
    /\ Argument_setValue 1%nat 10 s1 = Ok s2
    /\ (_value <$> pars s2 !! 0%nat) = Some (Some w0)
    /\ ConstraintPy.update 2
         (ConstraintPy.mkConstraint (Some 0%nat) (Some (twice 7 1))) s2 = Ok s3
    /\ (_value <$> pars s3 !! 0%nat) = Some (Some w) /\ (w == 20)%Q.
Proof.
  apply (Constraint_follows_on_update 1 1 ConstraintPy.init 0%nat 1%nat 7%nat
           two_pars (free_par "p" 1) (free_par "q" 2) 2%Q);
    first [reflexivity | discriminate].
Defined.

(** ** parameter.py: class Parameter *)

(** getValue writes nothing but the stored values of constrained
    parameters: observers and notifications are as before, every parameter
    keeps its name, flags, constraint and bounds, and a free parameter keeps
    its value. *)
Theorem getValue_changes_cached_values_only (fuel : nat) (p : ident)
    (s : store) (ov : option Q) (s' : store) :
  ParameterPy.getValue fuel p s = Ok (ov, s') ->
  observers s' = observers s /\ notified s' = notified s /\
  (forall q, pars s !! q = None -> pars s' !! q = None) /\
  forall q Q, pars s !! q = Some Q ->
    exists Q', pars s' !! q = Some Q' /\
      name Q' = name Q /\ const Q' = const Q /\ constrained Q' = constrained Q /\
      constraint Q' = constraint Q /\ bounds Q' = bounds Q /\
      (constraint Q = None -> _value Q' = _value Q).
Proof.
  intros H. apply getValue_frame in H. destruct H as (Hobs & Hnot & Hpars).
  split; [exact Hobs |]. split; [exact Hnot |]. split.
  - intros q Hq. specialize (Hpars q). rewrite Hq in Hpars.
    destruct (pars s' !! q); [contradiction | reflexivity].
  - intros q Q HQ. specialize (Hpars q). rewrite HQ in Hpars.
    destruct (pars s' !! q) as [Q' |]; [| contradiction].
    destruct Hpars as [HQ' Hfree]. exists Q'. split; [reflexivity |].
    rewrite HQ'. cbn. repeat split. intros Hc. rewrite (Hfree Hc). reflexivity.
Qed.

Lemma getValue_changes_cached_values_only_witness :
  observers (set_par 0%nat (with_value (Some (2 * 2)%Q)
               (with_constraint (Some (twice 7 1)) (free_par "p" 1))) p_constrained)
  = observers p_constrained /\
  notified (set_par 0%nat (with_value (Some (2 * 2)%Q)
               (with_constraint (Some (twice 7 1)) (free_par "p" 1))) p_constrained)
  = notified p_constrained /\
  (forall q, pars p_constrained !! q = None ->
     pars (set_par 0%nat (with_value (Some (2 * 2)%Q)
               (with_constraint (Some (twice 7 1)) (free_par "p" 1))) p_constrained) !! q
     = None) /\
  forall q Q, pars p_constrained !! q = Some Q ->
    exists Q', pars (set_par 0%nat (with_value (Some (2 * 2)%Q)
               (with_constraint (Some (twice 7 1)) (free_par "p" 1))) p_constrained) !! q
               = Some Q' /\
      name Q' = name Q /\ const Q' = const Q /\ constrained Q' = constrained Q /\
      constraint Q' = constraint Q /\ bounds Q' = bounds Q /\
      (constraint Q = None -> _value Q' = _value Q).
Proof.
  apply (getValue_changes_cached_values_only 2 0%nat p_constrained (Some (2 * 2)%Q)).
  vm_compute. reflexivity.
Defined.

Section MentionedLeaves.
Context {St : Type}.
Variable leaf_value : ident -> St -> result (Q * St).
Variable R : St -> St -> Prop.
Hypothesis R_refl : forall s, R s s.
Hypothesis R_trans : forall s1 s2 s3, R s1 s2 -> R s2 s3 -> R s1 s3.
Hypothesis leaf_R : forall p s v s', leaf_value p s = Ok (v, s') -> R s s'.

(** A successful evaluation has asked every leaf the node mentions, in a
    state reached from the initial one. *)
Lemma evaluate_asks_leaves p n :
  forall s v s', evaluate leaf_value n s = Ok (v, s') ->
    mentions p n = true ->
    exists s0 v0 s0', R s s0 /\ leaf_value p s0 = Ok (v0, s0').
Proof using R_refl R_trans leaf_R.
  induction n as [q | q | nm f args IH] using node_ind'; intros s v s' H Hm.
  - discriminate.
  - cbn in Hm. apply Nat.eqb_eq in Hm. subst q. cbn in H.
    exists s, v, s'. split; [apply R_refl | exact H].
  - rewrite evaluate_Operator in H. cbn [mentions] in Hm.
    destruct (evaluate_args leaf_value args s) as [[vs s1] | ex] eqn:Ea; [| discriminate].
    clear H. revert s vs s1 Ea Hm.
    induction IH as [| a l Ha _ IHl]; intros s vs s1 Ea Hm; [discriminate |].
    cbn [evaluate_args] in Ea.
    destruct (evaluate leaf_value a s) as [[v1 t1] | ex] eqn:E1; [| discriminate].
    cbn in Ea.
    destruct (evaluate_args leaf_value l t1) as [[vs1 t2] | ex] eqn:E2; [| discriminate].
    cbn [existsb] in Hm. apply orb_true_iff in Hm as [Hm | Hm].
    + eapply Ha; [exact E1 | exact Hm].
    + destruct (IHl t1 vs1 t2 E2 Hm) as (s0 & v0 & s0' & HR & Hleaf).
      exists s0, v0, s0'. split; [| exact Hleaf].
      eapply R_trans; [| exact HR].
      eapply (evaluate_preserves leaf_value R R_refl R_trans leaf_R). exact E1.
Qed.

End MentionedLeaves.

Lemma getValue_cyclic_no_value (p : ident) (e : Equation)
    (fuel : nat) (s : store) (P : Param) :
  pars s !! p = Some P -> constraint P = Some e ->
  mentions p (root e) = true ->
  forall r, ParameterPy.getValue fuel p s <> Ok r.
Proof.
  revert s P. induction fuel as [| k IH]; intros s P HP Hc Hm r H; [discriminate |].
  rewrite getValue_S, (get_Some _ _ _ HP) in H. cbn in H. rewrite Hc in H.
  destruct (ParameterPy.call k e s) as [[v s1] | ex] eqn:Hcall; [| discriminate].
  unfold ParameterPy.call in Hcall.
  destruct (evaluate_asks_leaves (as_number (ParameterPy.getValue k)) frame
              frame_refl frame_trans
              (fun q t w t' Hq => getValue_frame k q t (Some w) t' (as_number_Ok _ _ _ _ _ Hq))
              p (root e) s v s1 Hcall Hm)
    as (s0 & v0 & s0' & Hf & Hleaf).
  apply as_number_Ok in Hleaf.
  destruct (frame_lookup _ _ _ _ Hf HP) as (P0 & HP0 & HP0eq & _).
  assert (Hc0 : constraint P0 = Some e) by (rewrite HP0eq; exact Hc).
  exact (IH s0 P0 HP0 Hc0 Hm _ Hleaf).
Qed.

(** A parameter constrained to an equation that mentions the parameter
    itself has no value: getValue raises at every depth of recursion. *)
Theorem getValue_cyclic_constraint_never_returns (p : ident) (e : Equation)
    (fuel : nat) (s : store) (P : Param) :
  pars s !! p = Some P -> constraint P = Some e ->
  mentions p (root e) = true ->
  exists ex, ParameterPy.getValue fuel p s = Raise ex.
Proof.
  intros HP Hc Hm.
  destruct (ParameterPy.getValue fuel p s) as [r | ex] eqn:E.
  - exfalso. exact (getValue_cyclic_no_value p e fuel s P HP Hc Hm r E).
  - exists ex. reflexivity.
Qed.

Lemma getValue_cyclic_constraint_never_returns_witness :
  exists ex, ParameterPy.getValue 5 0%nat p_cyclic = Raise ex.
Proof.
  apply (getValue_cyclic_constraint_never_returns 0%nat (twice 7 0) 5 p_cyclic
           (with_constraint (Some (twice 7 0)) (free_par "p" 1))); reflexivity.
Defined.

(** For the constraint 2*p on p itself the failure is the exhausted call
    stack, at every depth. *)
Example getValue_cyclic_RecursionError :
  ParameterPy.getValue 50 0%nat p_cyclic = Raise RecursionError.
Proof. vm_compute. reflexivity. Qed.

Lemma Parameter_constrain_inv k p e s s2 P :
  ParameterPy.constrain k p e s = Ok s2 -> pars s !! p = Some P ->
  exists v s1 P1,
    pars s1 !! p = Some P1 /\
    P1 = with_value (_value P1) (with_constraint (Some e) P) /\
    s2 = notify p (set_par p (with_value (Some v) P1) s1) /\
    observers s1 = observers s ∪ {[ (eq_id e, p) ]} /\
    notified s1 = notified s.
Proof.
  intros H HP. unfold ParameterPy.constrain in H.
  rewrite (update_par_Some _ _ _ _ HP) in H. cbn [mbind result_bind] in H.
  set (sA := addObserver (eq_id e) p _) in *.
  assert (HpA : pars sA !! p = Some (with_constraint (Some e) P))
    by apply pars_set_par_eq.
  unfold ParameterPy._flush in H. rewrite (get_Some _ _ _ HpA) in H.
  cbn [mbind result_bind constraint with_constraint] in H.
  destruct (ParameterPy.call k e sA) as [[v s1] | ex] eqn:Hcall; [| discriminate].
  cbn [mbind result_bind] in H.
  destruct (call_frame _ _ _ _ _ Hcall) as (Hobs & Hnot & _).
  destruct (frame_lookup _ _ _ _ (call_frame _ _ _ _ _ Hcall) HpA)
    as (P1 & HP1 & HP1eq & _).
  rewrite (update_par_Some _ _ _ _ HP1) in H. cbn [mbind result_bind] in H.
  injection H as <-. exists v, s1, P1.
  split; [exact HP1 |]. split; [exact HP1eq |]. split; [reflexivity |].
  split; [rewrite Hobs; reflexivity | rewrite Hnot; reflexivity].
Qed.

(** Parameter.constrain followed by Parameter.unconstrain: the parameter is
    free again and holds the last value of the equation, with every other
    attribute as before; its observer registration on the equation is gone;
    the parameter has notified twice. *)
Theorem Parameter_constrain_unconstrain (k : nat) (p : ident) (e : Equation)
    (s s2 : store) (P : Param) (v' : Q) (s3 : store) :
  ParameterPy.constrain k p e s = Ok s2 -> pars s !! p = Some P ->
  ParameterPy.call k e s2 = Ok (v', s3) ->
  exists s4,
    ParameterPy.unconstrain k p s2 = Ok s4 /\
    pars s4 !! p = Some (with_value (Some v') (with_constraint None P)) /\
    observers s4 = observers s ∖ {[ (eq_id e, p) ]} /\
    notified s4 = notified s ++ [p; p].
Proof.
  intros Hcon HP Hcall.
  destruct (Parameter_constrain_inv _ _ _ _ _ _ Hcon HP)
    as (v & s1 & P1 & HP1 & HP1eq & -> & Hobs1 & Hnot1).
  set (s2 := notify p _) in *.
  assert (HP2 : pars s2 !! p = Some (with_value (Some v) P1))
    by (unfold s2; cbn; apply lookup_insert_eq).
  assert (Hc2 : constraint (with_value (Some v) P1) = Some e)
    by (rewrite HP1eq; reflexivity).
  destruct (call_frame _ _ _ _ _ Hcall) as (Hobs3 & Hnot3 & _).
  destruct (frame_lookup _ _ _ _ (call_frame _ _ _ _ _ Hcall) HP2)
    as (P3 & HP3 & HP3eq & _).
  unfold ParameterPy.unconstrain. rewrite (get_Some _ _ _ HP2).
  cbn [mbind result_bind]. rewrite Hc2, Hcall. cbn [mbind result_bind].
  rewrite (update_par_Some _ _ _ _ HP3). cbn [mbind result_bind].
  rewrite (get_Some _ _ _ (pars_set_par_eq _ _ _)). cbn [mbind result_bind].
  assert (Hc3 : constraint (with_value (Some v') P3) = Some e)
    by (rewrite HP3eq, HP1eq; reflexivity).
  rewrite Hc3.
  erewrite update_par_Some by (cbn; apply lookup_insert_eq).
  cbn [mbind result_bind]. eexists. split; [reflexivity |].
  split.
  { cbn. rewrite lookup_insert_eq. f_equal. rewrite HP3eq, HP1eq.
    destruct P; reflexivity. }
  split.
  - cbn. rewrite Hobs3. unfold s2. cbn. rewrite Hobs1.
    apply set_eq. intros x. rewrite !elem_of_difference, elem_of_union. tauto.
  - cbn. rewrite Hnot3. unfold s2. cbn. rewrite Hnot1, <- app_assoc. reflexivity.
Qed.

Lemma Parameter_constrain_unconstrain_witness :
  exists s4,
    ParameterPy.unconstrain 2 0%nat
      (notify 0%nat
         (set_par 0%nat (with_value (Some (2 * 2)%Q)
                           (with_constraint (Some (twice 7 1)) (free_par "p" 1)))
            (addObserver 7 0%nat
               (set_par 0%nat (with_constraint (Some (twice 7 1)) (free_par "p" 1))
                  two_pars)))) = Ok s4 /\
    pars s4 !! 0%nat
    = Some (with_value (Some (2 * 2)%Q) (with_constraint None (free_par "p" 1))) /\
    observers s4 = observers two_pars ∖ {[ (eq_id (twice 7 1), 0%nat) ]} /\
    notified s4 = notified two_pars ++ [0%nat; 0%nat].
Proof.
  eapply (Parameter_constrain_unconstrain 2 0%nat (twice 7 1) two_pars _
            (free_par "p" 1) (2 * 2)%Q).
  - vm_compute. reflexivity.
  - reflexivity.
  - vm_compute. reflexivity.
Defined.

(** setConst sets the flag and, when a value is given, gives the parameter
    that value, constant or not; anything else about the parameter stays. *)
Theorem setConst_sets_flag_and_value (p : ident) (c : bool) (v : Q)
    (s : store) (P : Param) :
  pars s !! p = Some P ->
  ParameterPy.setConst p c None s = Ok (set_par p (with_const c P) s)
  /\ exists s' w,
       ParameterPy.setConst p c (Some v) s = Ok s' /\
       pars s' !! p = Some (with_value (Some w) (with_const c P)) /\
       (w == v)%Q /\
       forall q, q <> p -> pars s' !! q = pars s !! q.
Proof.
  intros HP. unfold ParameterPy.setConst.
  rewrite (update_par_Some _ _ _ _ HP). cbn [mbind result_bind].
  split; [reflexivity |]. unfold ParameterPy.setValue.
  destruct (Argument_setValue_spec p v _ _ (pars_set_par_eq p (with_const c P) s))
    as (w & Hw & [[H1 H2] | [H1 H2]]).
  - exists (set_par p (with_const c P) s), w. split; [exact H1 |].
    split.
    { rewrite pars_set_par_eq. f_equal. cbn in H2.
      destruct P as [nm val cst cons cstr bnd]. cbn in *. subst val. reflexivity. }
    split; [exact Hw |]. intros q Hq. apply pars_set_par_ne. congruence.
  - subst w. eexists _, v. split; [exact H1 |].
    split; [cbn; rewrite lookup_insert_eq; reflexivity |].
    split; [reflexivity |]. intros q Hq. cbn.
    rewrite !lookup_insert_ne by congruence. reflexivity.
Qed.

Lemma setConst_sets_flag_and_value_witness :
  ParameterPy.setConst 0%nat true None two_pars
  = Ok (set_par 0%nat (with_const true (free_par "p" 1)) two_pars)
  /\ exists s' w,
       ParameterPy.setConst 0%nat true (Some 5%Q) two_pars = Ok s' /\
       pars s' !! 0%nat = Some (with_value (Some w) (with_const true (free_par "p" 1))) /\
       (w == 5)%Q /\
       forall q, q <> 0%nat -> pars s' !! q = pars two_pars !! q.
Proof.
  apply (setConst_sets_flag_and_value 0%nat true 5%Q two_pars (free_par "p" 1)).
  reflexivity.
Defined.

Lemma frame_sym s s1 : frame s s1 -> frame s1 s.
Proof.
  intros (Ho & Hn & H). split; [congruence |]. split; [congruence |].
  intros q. specialize (H q).
  destruct (pars s !! q) as [A |], (pars s1 !! q) as [B |]; try tauto.
  destruct H as [HB HBA]. split.
  - rewrite HB. destruct A; reflexivity.
  - intros HcB. symmetry. apply HBA. rewrite HB in HcB. exact HcB.
Qed.

Lemma same_touch_id s s' : same_touch s s s' s'.
Proof. intros q. right. split; reflexivity. Qed.

Lemma same_touch_comp s t u s' t' u' :
  same_touch s t s' t' -> same_touch t u t' u' -> same_touch s u s' u'.
Proof.
  intros H1 H2 q. specialize (H1 q). specialize (H2 q).
  destruct H2 as [H2 | [H2a H2b]]; [left; exact H2 |].
  destruct H1 as [H1 | [H1a H1b]].
  - left. congruence.
  - right. split; congruence.
Qed.

Section EvaluateRerun.
Context {St : Type}.
Variable leaf_value : ident -> St -> result (Q * St).
Variable sim : St -> St -> Prop.
Variable Rel : St -> St -> St -> St -> Prop.
Hypothesis sim_refl : forall s, sim s s.
Hypothesis sim_sym : forall s t, sim s t -> sim t s.
Hypothesis sim_trans : forall s1 s2 s3, sim s1 s2 -> sim s2 s3 -> sim s1 s3.
Hypothesis leaf_sim : forall p s v t, leaf_value p s = Ok (v, t) -> sim s t.
Hypothesis Rel_id : forall s s', Rel s s s' s'.
Hypothesis Rel_comp : forall s t u s' t' u',
  Rel s t s' t' -> Rel t u t' u' -> Rel s u s' u'.
Hypothesis leaf_rerun : forall p s v t s',
  leaf_value p s = Ok (v, t) -> sim s s' ->
  exists t', leaf_value p s' = Ok (v, t') /\ Rel s t s' t'.

(** Evaluating again from a similar state gives the same value. *)
Lemma evaluate_rerun n :
  forall s v t s', evaluate leaf_value n s = Ok (v, t) -> sim s s' ->
    exists t', evaluate leaf_value n s' = Ok (v, t') /\ Rel s t s' t'.
Proof using sim_refl sim_sym sim_trans leaf_sim Rel_id Rel_comp leaf_rerun.
  induction n as [q | q | nm f args IH] using node_ind'; intros s v t s' H Hs.
  - cbn in H. injection H as <- <-. exists s'. split; [reflexivity | apply Rel_id].
  - cbn in *. eapply leaf_rerun; eassumption.
  - rewrite evaluate_Operator in H.
    destruct (evaluate_args leaf_value args s) as [[vs s1] | ex] eqn:Ea; [| discriminate].
    cbn in H. destruct (apply_ufunc f vs) as [w |] eqn:Ef; cbn in H; [| discriminate].
    injection H as <- <-.
    assert (Hargs : exists t', evaluate_args leaf_value args s' = Ok (vs, t')
                               /\ Rel s s1 s' t').
    { clear Ef. revert s vs s1 s' Ea Hs.
      induction IH as [| a l Ha _ IHl]; intros s vs s1 s' Ea Hs.
      - cbn in Ea. injection Ea as <- <-. exists s'. split; [reflexivity | apply Rel_id].
      - cbn [evaluate_args] in Ea.
        destruct (evaluate leaf_value a s) as [[v1 t1] | ex] eqn:E1; [| discriminate].
        cbn in Ea.
        destruct (evaluate_args leaf_value l t1) as [[vs1 t2] | ex] eqn:E2; [| discriminate].
        cbn in Ea. injection Ea as <- <-.
        destruct (Ha s v1 t1 s' E1 Hs) as (t1' & E1' & HR1).
        assert (Hs1 : sim t1 t1').
        { eapply sim_trans; [apply sim_sym;
            eapply (evaluate_preserves leaf_value sim sim_refl sim_trans leaf_sim); exact E1 |].
          eapply sim_trans; [exact Hs |].
          eapply (evaluate_preserves leaf_value sim sim_refl sim_trans leaf_sim); exact E1'. }
        destruct (IHl t1 vs1 t2 t1' E2 Hs1) as (t2' & E2' & HR2).
        exists t2'. split.
        + cbn [evaluate_args]. rewrite E1'. cbn. rewrite E2'. reflexivity.
        + eapply Rel_comp; eassumption. }
    destruct Hargs as (t' & Ha' & HR). exists t'. split; [| exact HR].
    rewrite evaluate_Operator, Ha'. cbn. rewrite Ef. reflexivity.
Qed.

End EvaluateRerun.

Lemma getValue_rerun fuel :
  forall p s ov t s',
    ParameterPy.getValue fuel p s = Ok (ov, t) -> frame s s' ->
    exists t', ParameterPy.getValue fuel p s' = Ok (ov, t') /\ same_touch s t s' t'.
Proof.
  induction fuel as [| k IH]; intros p s ov t s' H Hs; [discriminate |].
  rewrite getValue_S in H. rewrite getValue_S.
  destruct (get p s) as [P | ex] eqn:HP; [| discriminate]. cbn in H.
  apply get_Ok in HP.
  destruct (frame_lookup _ _ _ _ Hs HP) as (P' & HP' & HP'eq & HP'free).
  rewrite (get_Some _ _ _ HP'). cbn.
  assert (Hc' : constraint P' = constraint P) by (rewrite HP'eq; reflexivity).
  rewrite Hc'.
  destruct (constraint P) as [e |] eqn:Hc.
  - destruct (ParameterPy.call k e s) as [[v s1] | ex] eqn:Hcall; [| discriminate].
    cbn in H.
    destruct (frame_lookup _ _ _ _ (call_frame _ _ _ _ _ Hcall) HP)
      as (P1 & HP1 & HP1eq & _).
    rewrite (update_par_Some _ _ _ _ HP1) in H. cbn in H.
    unfold Argument_getValue in H.
    rewrite (get_Some _ _ _ (pars_set_par_eq _ _ _)) in H. cbn in H.
    injection H as <- <-.
    assert (Hrun : exists s1', ParameterPy.call k e s' = Ok (v, s1')
                               /\ same_touch s s1 s' s1').
    { unfold ParameterPy.call in *.
      apply (evaluate_rerun (as_number (ParameterPy.getValue k)) frame same_touch
               frame_refl frame_sym frame_trans) with (s := s); try assumption.
      - intros q u w u' Hq. apply as_number_Ok in Hq. eapply getValue_frame. exact Hq.
      - apply same_touch_id.
      - apply same_touch_comp.
      - intros q u w u' u2 Hq Hsim. apply as_number_Ok in Hq.
        destruct (IH q u (Some w) u' u2 Hq Hsim) as (u2' & Hq' & HR).
        exists u2'. split; [| exact HR]. unfold as_number. rewrite Hq'. reflexivity. }
    destruct Hrun as (s1' & Hcall' & HR). rewrite Hcall'. cbn.
    destruct (frame_lookup _ _ _ _ (call_frame _ _ _ _ _ Hcall') HP')
      as (P1' & HP1' & HP1'eq & _).
    rewrite (update_par_Some _ _ _ _ HP1'). cbn. unfold Argument_getValue.
    rewrite (get_Some _ _ _ (pars_set_par_eq _ _ _)). cbn.
    eexists. split; [reflexivity |].
    intros q. destruct (decide (q = p)) as [-> | Hq].
    + left. rewrite !pars_set_par_eq. f_equal.
      rewrite HP1'eq, HP'eq, HP1eq. destruct P; reflexivity.
    + rewrite !pars_set_par_ne by congruence. apply HR.
  - unfold Argument_getValue in *. rewrite (get_Some _ _ _ HP) in H.
    rewrite (get_Some _ _ _ HP'). cbn in *. injection H as <- <-.
    rewrite (HP'free eq_refl). exists s'. split; [reflexivity | apply same_touch_id].
Qed.

(** getValue is idempotent: asked again at once, a parameter returns the
    same value and the store stays exactly as the first call left it. *)
Theorem getValue_idempotent (fuel : nat) (p : ident) (s : store)
    (ov : option Q) (t : store) :
  ParameterPy.getValue fuel p s = Ok (ov, t) ->
  ParameterPy.getValue fuel p t = Ok (ov, t).
Proof.
  intros H. pose proof (getValue_frame _ _ _ _ _ H) as Hf.
  destruct (getValue_rerun fuel p s ov t t H Hf) as (t' & H' & HR).
  rewrite H'. do 2 f_equal.
  pose proof (getValue_frame _ _ _ _ _ H') as (Ho & Hn & _).
  destruct t as [tp to tn], t' as [tp' to' tn']. cbn in *. subst to' tn'.
  f_equal. apply map_eq. intros q. destruct (HR q) as [Hq | [Hq _]]; exact Hq.
Qed.

Lemma getValue_idempotent_witness :
  ParameterPy.getValue 2 0%nat
    (set_par 0%nat (with_value (Some (2 * 2)%Q)
                      (with_constraint (Some (twice 7 1)) (free_par "p" 1))) p_constrained)
  = Ok (Some (2 * 2)%Q,
        set_par 0%nat (with_value (Some (2 * 2)%Q)
                         (with_constraint (Some (twice 7 1)) (free_par "p" 1))) p_constrained).
Proof.
  apply (getValue_idempotent 2 0%nat p_constrained).
  vm_compute. reflexivity.
Defined.

(** ** parameter.py: class ParameterProxy *)

(** Proxies alias: a value written through one proxy of a free parameter is
    read back through any other proxy of that parameter and through the
    parameter itself, and the store does not change on reading. *)
Theorem Proxy_write_is_seen_by_aliases (pr1 pr2 : Proxy.ParameterProxy)
    (x : Q) (s : store) (P : Param) :
  Proxy.par pr1 = Proxy.par pr2 ->
  pars s !! Proxy.par pr1 = Some P -> constraint P = None ->
  exists s' w,
    Proxy.setValue pr1 x s = Ok s' /\ (w == x)%Q /\
    forall n,
      Proxy.getValue (S n) pr2 s' = Ok (Some w, s') /\
      ParameterPy.getValue (S n) (Proxy.par pr1) s' = Ok (Some w, s').
Proof.
  intros Hsame HP Hc. unfold Proxy.setValue, Proxy.getValue. rewrite <- Hsame.
  destruct (setValue_then_getValue (Proxy.par pr1) x s P HP Hc) as (s' & w & Hs & Hw & Hg).
  exists s', w. split; [exact Hs |]. split; [exact Hw |].
  intros n. split; apply Hg.
Qed.

Lemma Proxy_write_is_seen_by_aliases_witness :
  exists s' w,
    Proxy.setValue proxy_a 3%Q two_pars = Ok s' /\ (w == 3)%Q /\
    forall n,
      Proxy.getValue (S n) proxy_b s' = Ok (Some w, s') /\
      ParameterPy.getValue (S n) (Proxy.par proxy_a) s' = Ok (Some w, s').
Proof.
  apply (Proxy_write_is_seen_by_aliases proxy_a proxy_b 3%Q two_pars (free_par "p" 1));
    reflexivity.
Defined.

(** ** parameter.py: class ParameterWrapper, continued *)

(** With accessors that read back what was written, setValue followed by
    getValue returns the value set; a second setValue of the same value
    changes neither the object nor the store and notifies no more. *)
Theorem Wrapper_setValue_getValue {Obj : Type}
    (w : @Wrapper.ParameterWrapper Obj) (g : Obj -> result Q)
    (st : Obj -> Q -> result Obj) (x c : Q) (o o' : Obj) (s : store) :
  Wrapper.getter w = Some g -> Wrapper.setter w = Some st ->
  g o = Ok c -> st o x = Ok o' -> g o' = Ok x ->
  exists o2 s2 r,
    Wrapper.setValue w x (o, s) = Ok (o2, s2) /\
    Wrapper.getValue w o2 = Ok r /\ (r == x)%Q /\
    Wrapper.setValue w x (o2, s2) = Ok (o2, s2) /\
    (notified s2 = notified s \/ notified s2 = notified s ++ [Wrapper.self w]).
Proof.
  intros Hg Hst Hc Hset Hback.
  unfold Wrapper.setValue, Wrapper.getValue. rewrite Hg, Hst, Hc. cbn.
  destruct (Qeq_bool x c) eqn:E; cbn.
  - exists o, s, c. split; [reflexivity |]. split; [exact Hc |].
    split; [symmetry; apply Qeq_bool_iff; exact E |].
    split; [rewrite Hc; cbn; rewrite E; reflexivity | left; reflexivity].
  - rewrite Hset. cbn. exists o', (notify (Wrapper.self w) s), x.
    split; [reflexivity |]. split; [exact Hback |]. split; [reflexivity |].
    split; [| right; reflexivity].
    rewrite Hback. cbn.
    assert (Hxx : Qeq_bool x x = true) by (apply Qeq_bool_iff; reflexivity).
    rewrite Hxx. reflexivity.
Qed.

Lemma Wrapper_setValue_getValue_witness :
  exists o2 s2 r,
    Wrapper.setValue cell_wrapper 3%Q (1%Q, two_pars) = Ok (o2, s2) /\
    Wrapper.getValue cell_wrapper o2 = Ok r /\ (r == 3)%Q /\
    Wrapper.setValue cell_wrapper 3%Q (o2, s2) = Ok (o2, s2) /\
    (notified s2 = notified two_pars
     \/ notified s2 = notified two_pars ++ [Wrapper.self cell_wrapper]).
Proof.
  apply (Wrapper_setValue_getValue cell_wrapper (fun o => cell_getter o None)
           (fun o v => cell_setter o None v) 3%Q 1%Q 1%Q 3%Q two_pars);
    reflexivity.
Defined.

Lemma Wrapper_init_inv {Obj : Type} (getattr : Obj -> string -> result Q)
    (setattr : Obj -> string -> Q -> result Obj) id nm o g st a w :
  Wrapper.init getattr setattr id nm o g st a = Ok w ->
  exists read v,
    Wrapper.effective_getter getattr g a = Some read /\ read o = Ok v /\
    isIdentifier nm = true /\
    w = Wrapper.mkWrapper id (mkParam nm (Some v) false false None (NegInf, PosInf))
          (Some read) (Wrapper.effective_setter setattr st a) a.
Proof.
  unfold Wrapper.init.
  destruct (Wrapper.is_None g && Wrapper.is_None st && Wrapper.is_None a); [discriminate |].
  destruct (Wrapper.count_None g st =? 1)%nat; [discriminate |].
  unfold Wrapper.getValue. cbn [Wrapper.getter].
  destruct (Wrapper.effective_getter getattr g a) as [read |] eqn:Eg; [| discriminate].
  destruct (read o) as [v |] eqn:Er; [| discriminate]. cbn.
  unfold Parameter_init, validateName.
  destruct (isIdentifier nm) eqn:Hid; [| discriminate]. cbn.
  intros H. injection H as <-. exists read, v. repeat split; assumption.
Qed.

(** A wrapper that has been built holds, as its value, what its getValue
    returns on the wrapped object as it is, carries the given name and
    attribute key, and is neither constant nor constrained. *)
Theorem Wrapper_init_reads_object {Obj : Type}
    (getattr : Obj -> string -> result Q)
    (setattr : Obj -> string -> Q -> result Obj) (id : ident) (nm : string)
    (o : Obj) (g : option Wrapper.Getter) (st : option Wrapper.Setter)
    (a : option string) (w : Wrapper.ParameterWrapper) :
  Wrapper.init getattr setattr id nm o g st a = Ok w ->
  exists v,
    Wrapper.getValue w o = Ok v /\ _value (Wrapper.par w) = Some v /\
    name (Wrapper.par w) = nm /\ Wrapper.attr w = a /\
    const (Wrapper.par w) = false /\ constraint (Wrapper.par w) = None /\
    (forall k, a = Some k -> g = None -> Wrapper.getValue w o = getattr o k) /\
    (forall k g', a = Some k -> g = Some g' -> Wrapper.getValue w o = g' o (Some k)) /\
    (forall g', a = None -> g = Some g' -> Wrapper.getValue w o = g' o None).
Proof.
  intros H.
  destruct (Wrapper_init_inv _ _ _ _ _ _ _ _ _ H) as (read & v & Eg & Er & Hid & ->).
  exists v. unfold Wrapper.getValue. cbn. rewrite Er.
  repeat split; try reflexivity.
  - intros k -> ->. cbn in Eg. injection Eg as <-. symmetry. exact Er.
  - intros k g' -> ->. cbn in Eg. injection Eg as <-. symmetry. exact Er.
  - intros g' -> ->. cbn in Eg. injection Eg as <-. symmetry. exact Er.
Qed.

Lemma Wrapper_init_reads_object_witness :
  exists v,
    Wrapper.getValue cell_wrapper 1%Q = Ok v /\
    _value (Wrapper.par cell_wrapper) = Some v /\
    name (Wrapper.par cell_wrapper) = "scale" /\ Wrapper.attr cell_wrapper = None /\
    const (Wrapper.par cell_wrapper) = false /\
    constraint (Wrapper.par cell_wrapper) = None /\
    (forall k, None = Some k -> Some cell_getter = None ->
       Wrapper.getValue cell_wrapper 1%Q = cell_getattr 1%Q k) /\
    (forall k g', None = Some k -> Some cell_getter = Some g' ->
       Wrapper.getValue cell_wrapper 1%Q = g' 1%Q (Some k)) /\
    (forall g', @None string = None -> Some cell_getter = Some g' ->
       Wrapper.getValue cell_wrapper 1%Q = g' 1%Q None).
Proof.
  apply (Wrapper_init_reads_object cell_getattr cell_setattr 0%nat "scale" 1%Q
           (Some cell_getter) (Some cell_setter) None cell_wrapper).
  reflexivity.
Defined.

(** __init__ reads the value through the getter: when the accessors pass the
    check and the getter raises on the object, the construction fails with
    that very exception and no wrapper is built.  So a getter that needs the
    attribute name, supplied without a key, cannot be wrapped. *)
Theorem Wrapper_init_getter_failure {Obj : Type}
    (getattr : Obj -> string -> result Q)
    (setattr : Obj -> string -> Q -> result Obj) (id : ident) (nm : string)
    (o : Obj) (g : option Wrapper.Getter) (st : option Wrapper.Setter)
    (a : option string) (read : Obj -> result Q) (ex : exception) :
  ~ Wrapper.accessor_misuse g st a ->
  Wrapper.effective_getter getattr g a = Some read -> read o = Raise ex ->
  Wrapper.init getattr setattr id nm o g st a = Raise ex.
Proof.
  intros Hm Eg Er. unfold Wrapper.init.
  pose proof (accessor_check g st a) as Hchk.
  destruct (Wrapper.is_None g && Wrapper.is_None st && Wrapper.is_None a) eqn:E1.
  { exfalso. apply Hm, Hchk. reflexivity. }
  destruct (Wrapper.count_None g st =? 1)%nat eqn:E2.
  { exfalso. apply Hm, Hchk. reflexivity. }
  unfold Wrapper.getValue. cbn [Wrapper.getter]. rewrite Eg, Er. reflexivity.
Qed.

Lemma Wrapper_init_getter_failure_witness :
  Wrapper.init attrs_getattr attrs_setattr 0%nat "qbroad" calc_attrs
    (Some attrs_get) (Some attrs_set) None = Raise TypeError.
Proof.
  apply (Wrapper_init_getter_failure attrs_getattr attrs_setattr 0%nat "qbroad"
           calc_attrs (Some attrs_get) (Some attrs_set) None
           (fun o => attrs_get o None) TypeError).
  - intros [[H _] | [[_ H] | [H _]]]; discriminate H.
  - reflexivity.
  - reflexivity.
Defined.

(** _flush on a constrained wrapper writes the value of the constraint into
    the wrapped object and notifies, whether or not the object already held
    that value; with accessors that read back what was written, getValue then
    returns the value of the constraint.  Without a constraint the object is
    left alone and the wrapper only notifies. *)
Theorem Wrapper_flush_pushes_constraint {Obj : Type}
    (w : @Wrapper.ParameterWrapper Obj) (g : Obj -> result Q)
    (st : Obj -> Q -> result Obj) (fuel : nat) (o o' : Obj) (s s1 : store)
    (eq : Equation) (v : Q) :
  Wrapper.getter w = Some g -> Wrapper.setter w = Some st ->
  ParameterPy.call fuel eq s = Ok (v, s1) -> st o v = Ok o' -> g o' = Ok v ->
  (constraint (Wrapper.par w) = Some eq ->
     Wrapper._flush fuel w (o, s) = Ok (o', notify (Wrapper.self w) s1)
     /\ Wrapper.getValue w o' = Ok v)
  /\ (constraint (Wrapper.par w) = None ->
     Wrapper._flush fuel w (o, s) = Ok (o, notify (Wrapper.self w) s)).
Proof.
  intros Hg Hst Hcall Hset Hback. unfold Wrapper._flush, Wrapper.getValue. split.
  - intros ->. rewrite Hcall. cbn. rewrite Hst, Hset, Hg. cbn. split; [reflexivity | exact Hback].
  - intros ->. reflexivity.
Qed.

Lemma Wrapper_flush_pushes_constraint_witness :
  (constraint (Wrapper.par cell_wrapper_constrained) = Some (twice 7 1) ->
     Wrapper._flush 2 cell_wrapper_constrained (1%Q, two_pars)
     = Ok ((2 * 2)%Q, notify (Wrapper.self cell_wrapper_constrained) two_pars)
     /\ Wrapper.getValue cell_wrapper_constrained (2 * 2)%Q = Ok (2 * 2)%Q)
  /\ (constraint (Wrapper.par cell_wrapper_constrained) = None ->
     Wrapper._flush 2 cell_wrapper_constrained (1%Q, two_pars)
     = Ok (1%Q, notify (Wrapper.self cell_wrapper_constrained) two_pars)).
Proof.
  apply (Wrapper_flush_pushes_constraint cell_wrapper_constrained
           (fun o => cell_getter o None) (fun o v => cell_setter o None v)
           2 1%Q (2 * 2)%Q two_pars two_pars (twice 7 1) (2 * 2)%Q); reflexivity.
Defined.

(** ** literals/Generator.py, continued *)

(** Literals added one after another are kept in the order added, both as
    arguments and as subjects of the clicker; name and literal stay. *)
Theorem Generator_addLiteral_keeps_order (self : GeneratorPy.Generator)
    (ls : list node) :
  let g := fold_left GeneratorPy.addLiteral ls self in
  GeneratorPy.args g = GeneratorPy.args self ++ ls /\
  GeneratorPy.subjects g = GeneratorPy.subjects self ++ ls /\
  GeneratorPy.name g = GeneratorPy.name self /\
  GeneratorPy.literal g = GeneratorPy.literal self.
Proof.
  revert self. induction ls as [| l ls IH]; intros self; cbn.
  - rewrite !app_nil_r. repeat split.
  - destruct (IH (GeneratorPy.addLiteral self l)) as (Ha & Hs & Hn & Hl).
    cbn in *. rewrite Ha, Hs, Hn, Hl, <- !app_assoc. repeat split.
Qed.

(** ** util/visitors.py: the getters, continued *)

(** FilterGetter collects exactly the reachable nodes its filter accepts, on
    top of what it already held: a getter used on several trees in turn
    accumulates. *)
Theorem FilterGetter_exact (filt : vnode -> bool) (n : vnode)
    (vals : gset ident) (x : ident) :
  (x ∈ FilterGetter filt n vals <->
   x ∈ vals \/ exists q, reachable n q /\ filt q = true /\ node_id q = x)
  /\ FilterGetter filt n vals = vals ∪ FilterGetter filt n ∅.
Proof.
  assert (Hiff : forall vs y,
    y ∈ FilterGetter filt n vs <->
    y ∈ vs \/ exists q, reachable n q /\ filt q = true /\ node_id q = y).
  { intros vs y. split.
    - apply FilterGetter_sound.
    - intros [Hy | (q & Hr & Hf & <-)].
      + apply (FilterGetter_mono filt n vs). exact Hy.
      + apply FilterGetter_complete; assumption. }
  split; [apply Hiff |].
  apply set_eq. intros y. rewrite elem_of_union, !Hiff.
  split.
  - intros [Hy | Hq]; [left; exact Hy | right; right; exact Hq].
  - intros [Hy | [Hy | Hq]]; [left; exact Hy | | right; exact Hq].
    apply not_elem_of_empty in Hy. contradiction.
Qed.

(** ParameterGetter collects exactly the reachable parameters its filter
    accepts (all of them without a filter), and never an operator or a
    container. *)
Theorem ParameterGetter_exact (filt : option (vnode -> bool)) (n : vnode)
    (x : ident) :
  x ∈ ParameterGetter filt n <->
  exists q, reachable n q /\ is_par q = true
            /\ default _identity filt q = true /\ node_id q = x.
Proof.
  split; [apply ParameterGetter_sound |].
  intros (q & Hr & Hp & Hf & <-). apply ParameterGetter_complete; assumption.
Qed.

(** ** util/visitors.py: NodeFinder *)

Lemma NodeFinder_sticky target n : NodeFinder target n true = true.
Proof.
  destruct n as [i nm v c | i nm u args kw | i nm v ads]; cbn;
    destruct (i =? target)%nat; reflexivity.
Qed.

Lemma NodeFinder_or target n found :
  NodeFinder target n found = found || NodeFinder target n false.
Proof. destruct found; [apply NodeFinder_sticky | reflexivity]. Qed.

Lemma fold_find {B} (visit : B -> bool -> bool) (l : list B) :
  (forall b, visit b true = true) ->
  forall found,
    fold_left (fun found b => visit b found) l found = true <->
    found = true \/ exists b, b ∈ l /\ visit b false = true.
Proof.
  intros Hsticky. induction l as [| b l IH]; intros found; cbn.
  - split; [tauto |]. intros [H | (b & Hb & _)]; [exact H | inversion Hb].
  - rewrite IH. split.
    + intros [H | (c & Hc & Hv)].
      * destruct found; [left; reflexivity |].
        right. exists b. split; [apply list_elem_of_here | exact H].
      * right. exists c. split; [apply list_elem_of_further; exact Hc | exact Hv].
    + intros [-> | (c & Hc & Hv)].
      * left. apply Hsticky.
      * apply elem_of_cons in Hc as [-> | Hc].
        -- left. destruct found; [apply Hsticky | exact Hv].
        -- right. exists c. tauto.
Qed.

(** NodeFinder reports found exactly when the object looked for is the root
    or can be reached from it through constraints, arguments, keyword
    arguments and adapters; a flag already set stays set. *)
Theorem NodeFinder_finds_reachable (target : ident) (n : vnode) :
  (NodeFinder target n false = true <->
   exists q, reachable n q /\ node_id q = target)
  /\ NodeFinder target n true = true.
Proof.
  split; [| apply NodeFinder_sticky].
  induction n as [i nm v c IH | i nm u args kw IHa IHk | i nm v ads IH]
    using vnode_ind'.
  - cbn [NodeFinder]. destruct (i =? target)%nat eqn:E.
    + split; [| reflexivity]. intros _. apply Nat.eqb_eq in E.
      eexists. split; [apply rtc_refl | exact E].
    + apply Nat.eqb_neq in E. destruct c as [e |].
      * rewrite IH. split.
        -- intros (q & Hr & Hq). exists q. split; [| exact Hq].
           eapply rtc_l; [apply child_constraint | exact Hr].
        -- intros (q & Hr & Hq).
           apply rtc_inv in Hr as [<- | (m & Hstep & Hrest)]; [contradiction |].
           inversion Hstep; subst. exists q. tauto.
      * split; [discriminate |]. intros (q & Hr & Hq).
        apply rtc_inv in Hr as [<- | (m & Hstep & _)]; [contradiction |].
        inversion Hstep.
  - cbn [NodeFinder]. destruct (i =? target)%nat eqn:E.
    + split; [| reflexivity]. intros _. apply Nat.eqb_eq in E.
      eexists. split; [apply rtc_refl | exact E].
    + apply Nat.eqb_neq in E.
      rewrite (fold_find (fun ka => NodeFinder target (snd ka)) kw
                 (fun ka => NodeFinder_sticky target (snd ka))).
      rewrite (fold_find (NodeFinder target) args (NodeFinder_sticky target)).
      rewrite Forall_forall in IHa. rewrite Forall_forall in IHk. split.
      * intros [[H | (a & Ha & Hv)] | (ka & Hka & Hv)]; [discriminate | |].
        -- apply (IHa a Ha) in Hv as (q & Hr & Hq). exists q. split; [| exact Hq].
           eapply rtc_l; [apply child_arg; exact Ha | exact Hr].
        -- apply (IHk ka Hka) in Hv as (q & Hr & Hq). exists q. split; [| exact Hq].
           eapply rtc_l; [apply child_kw; exact Hka | exact Hr].
      * intros (q & Hr & Hq).
        apply rtc_inv in Hr as [<- | (m & Hstep & Hrest)]; [contradiction |].
        inversion Hstep; subst.
        -- left. right. exists m. split; [assumption |].
           apply IHa; [assumption |]. exists q. tauto.
        -- right. exists ka. split; [assumption |].
           apply IHk; [assumption |]. exists q. tauto.
  - cbn [NodeFinder]. destruct (i =? target)%nat eqn:E.
    + split; [| reflexivity]. intros _. apply Nat.eqb_eq in E.
      eexists. split; [apply rtc_refl | exact E].
    + apply Nat.eqb_neq in E.
      rewrite (fold_find (NodeFinder target) ads (NodeFinder_sticky target)).
      rewrite Forall_forall in IH. split.
      * intros [H | (a & Ha & Hv)]; [discriminate |].
        apply (IH a Ha) in Hv as (q & Hr & Hq). exists q. split; [| exact Hq].
        eapply rtc_l; [apply child_adapter; exact Ha | exact Hr].
      * intros (q & Hr & Hq).
        apply rtc_inv in Hr as [<- | (m & Hstep & Hrest)]; [contradiction |].
        inversion Hstep; subst.
        right. exists m. split; [assumption |].
        apply IH; [assumption |]. exists q. tauto.
Qed.

(** ** util/visitors.py: Printer, continued *)

(** A Printer that is not reset between two visits holds both renderings,
    one after the other, after what it held before. *)
Theorem Printer_accumulates (n1 n2 : vnode) (r1 r2 output : string) :
  render n1 = Ok r1 -> render n2 = Ok r2 ->
  (out ← Printer n1 output; Printer n2 out) = Ok (output +:+ r1 +:+ r2).
Proof.
  intros H1 H2. rewrite Printer_appends, H1. cbn [mbind result_bind].
  rewrite Printer_appends, H2. cbn [mbind result_bind].
  rewrite append_assoc. reflexivity.
Qed.

Lemma Printer_accumulates_witness :
  (out ← Printer par_x "f = "; Printer par_y out) = Ok ("f = " +:+ "x" +:+ "y").
Proof.
  apply (Printer_accumulates par_x par_y "x" "y" "f = "); reflexivity.
Defined.

(** The five binary functions render as [left symbol right] and negative as
    [-operand], inside parentheses unless the text already starts with "("
    and ends with ")"; further positional arguments and all keyword
    arguments of such an operator are not printed. *)
Theorem Printer_infix_and_prefix (i : ident) (nm : string) (u : unbound)
    (a b : vnode) (rest : list vnode) (kw : list (string * vnode))
    (ra rb : string) :
  render a = Ok ra -> render b = Ok rb ->
  (forall symbol, _infix u = Some symbol ->
     let body := ra +:+ " " +:+ symbol +:+ " " +:+ rb in
     render (Op i nm u (a :: b :: rest) kw)
     = Ok (if startswith "(" body && endswith ")" body then body
           else "(" +:+ body +:+ ")"))
  /\ (let body := "-" +:+ ra in
      render (Op i nm u_negative (a :: rest) kw)
      = Ok (if startswith "(" body && endswith ")" body then body
            else "(" +:+ body +:+ ")")).
Proof.
  intros Ha Hb. split.
  - intros symbol Hu body.
    rewrite (render_infix i nm u symbol a b rest kw ra rb Hu Ha Hb).
    reflexivity.
  - intros body. rewrite (render_unary i nm a rest kw ra Ha). reflexivity.
Qed.

Lemma Printer_infix_and_prefix_witness :
  (forall symbol, _infix u_divide = Some symbol ->
     let body := "x" +:+ " " +:+ symbol +:+ " " +:+ "y" in
     render (Op 0 "divide" u_divide (par_x :: par_y :: [par_z]) [("k", par_z)])
     = Ok (if startswith "(" body && endswith ")" body then body
           else "(" +:+ body +:+ ")"))
  /\ (let body := "-" +:+ "x" in
      render (Op 0 "divide" u_negative (par_x :: [par_z]) [("k", par_z)])
      = Ok (if startswith "(" body && endswith ")" body then body
            else "(" +:+ body +:+ ")")).
Proof.
  apply (Printer_infix_and_prefix 0 "divide" u_divide par_x par_y [par_z]
           [("k", par_z)] "x" "y"); reflexivity.
Defined.

(** An operator that is neither infix nor unary renders as its name
    followed by its arguments: the positional ones separated by ", ", then
    the keyword ones, each written [, key = value] when there is at least
    one positional argument and bare otherwise; the parentheses around the
    arguments are left out when their text already starts with "(" and ends
    with ")". *)
Theorem Printer_call_form (i : ident) (nm : string) (u : unbound)
    (args : list vnode) (kw : list (string * vnode)) (ras rks : list string) :
  _infix u = None -> _unary u = None ->
  Forall2 (fun a r => render a = Ok r) args ras ->
  Forall2 (fun ka r => render (snd ka) = Ok r) kw rks ->
  let body := sep_args 0 ras +:+ sep_kw (length ras) (zip (fst <$> kw) rks) in
  render (Op i nm u args kw)
  = Ok (nm +:+ (if startswith "(" body && endswith ")" body then body
                else "(" +:+ body +:+ ")")).
Proof.
  intros Hi Hu Ha Hk body.
  rewrite (render_call i nm u args kw ras rks Hi Hu Ha Hk). reflexivity.
Qed.

Lemma Printer_call_form_witness :
  let body := sep_args 0 ["x"; "y"]
              +:+ sep_kw (length ["x"; "y"]) (zip (fst <$> [("k", par_z)]) ["z"]) in
  render (Op 0 "f" (u_other 9) [par_x; par_y] [("k", par_z)])
  = Ok ("f" +:+ (if startswith "(" body && endswith ")" body then body
                 else "(" +:+ body +:+ ")")).
Proof.
  apply (Printer_call_form 0 "f" (u_other 9) [par_x; par_y] [("k", par_z)]
           ["x"; "y"] ["z"]); try reflexivity.
  - repeat constructor.
  - repeat constructor.
Defined.

Lemma Printer_args_indexable (l : list vnode) :
  Forall (fun a => forall output,
            if indexable a then exists r, Printer a output = Ok r
            else Printer a output = Raise IndexError) l ->
  forall output n,
    if forallb indexable l
    then exists r, Printer_args l output n = Ok (r, (n + length l)%nat)
    else Printer_args l output n = Raise IndexError.
Proof.
  induction 1 as [| a l Ha _ IHl]; intros output n.
  - cbn. eexists. rewrite Nat.add_0_r. reflexivity.
  - cbn [forallb Printer_args length]. cbv zeta.
    specialize (Ha (if negb (n =? 0)%nat then output +:+ ", " else output)).
    destruct (indexable a).
    + destruct Ha as (r & ->). cbn [mbind result_bind andb].
      specialize (IHl r (S n)). destruct (forallb indexable l).
      * destruct IHl as (r' & ->). exists r'. rewrite Nat.add_succ_r. reflexivity.
      * exact IHl.
    + rewrite Ha. reflexivity.
Qed.

Lemma Printer_kw_indexable numargs (l : list (string * vnode)) :
  Forall (fun ka => forall output,
            if indexable (snd ka) then exists r, Printer (snd ka) output = Ok r
            else Printer (snd ka) output = Raise IndexError) l ->
  forall output,
    if forallb (fun ka => indexable (snd ka)) l
    then exists r, Printer_kw numargs l output = Ok r
    else Printer_kw numargs l output = Raise IndexError.
Proof.
  induction 1 as [| ka l Ha _ IHl]; intros output.
  - cbn. eexists. reflexivity.
  - cbn [forallb Printer_kw]. cbv zeta.
    specialize (Ha (if negb (numargs =? 0)%nat
                    then output +:+ ", " +:+ fst ka +:+ " = " else output)).
    destruct (indexable (snd ka)).
    + destruct Ha as (r & ->). cbn [mbind result_bind andb]. apply IHl.
    + rewrite Ha. reflexivity.
Qed.

(** The Printer fails only by indexing a missing argument: it returns a
    text exactly when every infix operator it visits has two positional
    arguments and every unary one has one, and raises IndexError
    otherwise. *)
Theorem Printer_fails_only_on_missing_arguments (n : vnode) (output : string) :
  if indexable n then exists r, Printer n output = Ok r
  else Printer n output = Raise IndexError.
Proof.
  revert output.
  induction n as [i nm v c IH | i nm u args kw IHa IHk | i nm v ads IH]
    using vnode_ind'; intros output.
  - cbn. eexists. reflexivity.
  - rewrite Printer_Op. cbn [indexable].
    destruct (_infix u) as [symbol |].
    + destruct args as [| a0 [| a1 rest]]; [reflexivity | |].
      * apply Forall_cons_1 in IHa as [H0 _]. specialize (H0 "").
        destruct (indexable a0); [destruct H0 as (r & ->) | rewrite H0]; reflexivity.
      * apply Forall_cons_1 in IHa as [H0 IHa].
        apply Forall_cons_1 in IHa as [H1 _]. specialize (H0 "").
        destruct (indexable a0); [| rewrite H0; reflexivity].
        destruct H0 as (r & ->). cbn [mbind result_bind andb].
        specialize (H1 (r +:+ " " +:+ symbol +:+ " ")).
        destruct (indexable a1); [| rewrite H1; reflexivity].
        destruct H1 as (r' & ->). eexists. reflexivity.
    + destruct (_unary u) as [symbol |].
      * destruct args as [| a0 rest]; [reflexivity |].
        apply Forall_cons_1 in IHa as [H0 _]. specialize (H0 ("" +:+ symbol)).
        destruct (indexable a0); [| rewrite H0; reflexivity].
        destruct H0 as (r & ->). eexists. reflexivity.
      * pose proof (Printer_args_indexable args IHa "" 0%nat) as Ha.
        destruct (forallb indexable args); [| rewrite Ha; reflexivity].
        destruct Ha as (r & ->). cbn [mbind result_bind andb].
        pose proof (Printer_kw_indexable (0 + length args) kw IHk r) as Hk.
        destruct (forallb (fun ka => indexable (snd ka)) kw); [| rewrite Hk; reflexivity].
        destruct Hk as (r' & ->). eexists. reflexivity.
  - cbn. eexists. reflexivity.
Qed.

Lemma startswith_app c (a b : string) :
  a <> "" -> startswith c (a +:+ b) = startswith c a.
Proof. destruct a as [| x a]; [congruence | reflexivity]. Qed.

Lemma endswith_app c (a b : string) :
  b <> "" -> endswith c (a +:+ b) = endswith c b.
Proof.
  intros Hb. induction a as [| x a IH]; [reflexivity |].
  change (endswith c (String x (a +:+ b)) = endswith c b).
  cbn [endswith]. destruct (a +:+ b) as [| y r] eqn:E.
  - destruct a; [cbn in E; contradiction | discriminate E].
  - exact IH.
Qed.

(** Whether an infix operator is put in parentheses is decided by two
    characters only: it is left bare exactly when the rendering of its left
    operand starts with "(" and that of its right operand ends with ")", as
    for a product of two sums, which prints as (x + y) * (y - z). *)
Theorem Printer_infix_parentheses (i : ident) (nm : string) (u : unbound)
    (symbol : string) (a b : vnode) (rest : list vnode)
    (kw : list (string * vnode)) (ra rb : string) :
  _infix u = Some symbol -> render a = Ok ra -> render b = Ok rb ->
  render (Op i nm u (a :: b :: rest) kw)
  = Ok (if startswith "(" ra && endswith ")" rb
        then ra +:+ " " +:+ symbol +:+ " " +:+ rb
        else "(" +:+ ra +:+ " " +:+ symbol +:+ " " +:+ rb +:+ ")").
Proof.
  intros Hu Ha Hb.
  rewrite (render_infix i nm u symbol a b rest kw ra rb Hu Ha Hb).
  unfold close_operator.
  assert (Hs : startswith "(" (ra +:+ " " +:+ symbol +:+ " " +:+ rb)
               = startswith "(" ra).
  { destruct ra; reflexivity. }
  assert (He : endswith ")" (ra +:+ " " +:+ symbol +:+ " " +:+ rb)
               = endswith ")" rb).
  { rewrite <- !append_assoc. destruct rb as [| y rb].
    - rewrite append_empty_r. rewrite endswith_app by discriminate. reflexivity.
    - apply endswith_app. discriminate. }
  rewrite Hs, He.
  destruct (startswith "(" ra && endswith ")" rb); [reflexivity |].
  cbn [String.append]. rewrite !append_assoc. reflexivity.
Qed.

Lemma Printer_infix_parentheses_witness :
  render (Op 0 "multiply" u_multiply
            (Op 1 "add" u_add [par_x; par_y] []
             :: Op 2 "subtract" u_subtract [par_y; par_z] [] :: []) [])
  = Ok (if startswith "(" "(x + y)" && endswith ")" "(y - z)"
        then "(x + y)" +:+ " " +:+ "*" +:+ " " +:+ "(y - z)"
        else "(" +:+ "(x + y)" +:+ " " +:+ "*" +:+ " " +:+ "(y - z)" +:+ ")").
Proof.
  apply (Printer_infix_parentheses 0 "multiply" u_multiply "*"
           (Op 1 "add" u_add [par_x; par_y] [])
           (Op 2 "subtract" u_subtract [par_y; par_z] []) [] [] "(x + y)" "(y - z)");
    reflexivity.
Defined.

(** ** pdf/pdfgenerator.py *)

Lemma upper_X_or_N (t : string) :
  (upper t = "X" <-> t = "X" \/ t = "x") /\ (upper t = "N" <-> t = "N" \/ t = "n").
Proof.
  destruct t as [| c [| c' r]].
  - split; split; intros H; try discriminate; destruct H; discriminate.
  - destruct c as [[] [] [] [] [] [] [] []];
      (split; split; intros H; vm_compute in H |- *;
       first [ discriminate H | reflexivity | left; reflexivity
             | right; reflexivity | destruct H as [H | H]; discriminate H ]).
  - split; split; intros H; cbn in H; try discriminate;
      destruct H; discriminate.
Qed.

(** setScatteringType accepts the four spellings X, x, N and n and nothing
    else; what it records under "stype" and passes to the calculator is the
    upper-case letter, and every other entry of the metadata stays. *)
Theorem setScatteringType_accepts_X_and_N {Calc : Type}
    (setTable : string -> Calc -> Calc) (t : string)
    (self : PDFGeneratorPy.PDFGenerator) :
  (is_Ok (PDFGeneratorPy.setScatteringType setTable t self)
     <-> t = "X" \/ t = "x" \/ t = "N" \/ t = "n")
  /\ (raises_ValueError (PDFGeneratorPy.setScatteringType setTable t self)
     <-> ~ (t = "X" \/ t = "x" \/ t = "N" \/ t = "n"))
  /\ forall g,
       PDFGeneratorPy.setScatteringType setTable t self = Ok g ->
       PDFGeneratorPy.meta g !! "stype" = Some (PDFGeneratorPy.MStr (upper t)) /\
       (forall k, k <> "stype" ->
          PDFGeneratorPy.meta g !! k = PDFGeneratorPy.meta self !! k) /\
       PDFGeneratorPy._calc g = setTable (upper t) (PDFGeneratorPy._calc self).
Proof.
  destruct (upper_X_or_N t) as [HX HN].
  unfold PDFGeneratorPy.setScatteringType.
  destruct (String.eqb (upper t) "X") eqn:EX.
  - apply String.eqb_eq in EX. cbn. split; [| split].
    + split; [intros _ | intros _; eexists; reflexivity].
      apply HX in EX. tauto.
    + split; [intros [m Hm]; discriminate |].
      intros Hn. exfalso. apply Hn. apply HX in EX. tauto.
    + intros g H. injection H as <-. cbn. split; [apply lookup_insert_eq |].
      split; [| reflexivity]. intros k Hk. apply lookup_insert_ne. congruence.
  - apply String.eqb_neq in EX. destruct (String.eqb (upper t) "N") eqn:EN.
    + apply String.eqb_eq in EN. cbn. split; [| split].
      * split; [intros _ | intros _; eexists; reflexivity].
        apply HN in EN. tauto.
      * split; [intros [m Hm]; discriminate |].
        intros Hn. exfalso. apply Hn. apply HN in EN. tauto.
      * intros g H. injection H as <-. cbn. split; [apply lookup_insert_eq |].
        split; [| reflexivity]. intros k Hk. apply lookup_insert_ne. congruence.
    + apply String.eqb_neq in EN. cbn. split; [| split].
      * split; [intros [g Hg]; discriminate |].
        intros H. exfalso. destruct H as [H | [H | H]].
        -- apply EX, HX. tauto.
        -- apply EX, HX. tauto.
        -- apply EN, HN. tauto.
      * split; [| intros _; eexists; reflexivity].
        intros _ H. 
        assert (HXN : upper t = "X" \/ upper t = "N").
        { destruct H as [H | [H | [H | H]]];
            [left; apply HX; tauto | left; apply HX; tauto
            | right; apply HN; tauto | right; apply HN; tauto]. }
        destruct HXN; contradiction.
      * intros g H. discriminate H.
Qed.
